(** * A shallow embedding of [finite_state_machine.py]

    The non-deterministic finite state machine of the repository: states,
    labelled transitions, listeners, direct transitions, action simulation
    and breadth-first path search, together with the CSV loader. *)

From Stdlib Require Import ZArith Lia.
From stdpp Require Import base list strings.

Local Open Scope Z_scope.

(** ** Python values and exceptions *)

(** The exceptions the module can raise. *)
Inductive exn : Type :=
  | IndexError
  | ValueError (msg : string)
  | TypeError (msg : string).

(** Outcome of running a piece of Python code.  [OutOfFuel] is not a Python
    outcome: it marks a loop model that was cut off by its step bound. *)
Inductive result (A : Type) : Type :=
  | Ok (a : A)
  | Raise (e : exn)
  | OutOfFuel.
Arguments Ok {A} a.
Arguments Raise {A} e.
Arguments OutOfFuel {A}.

(** Sequencing: an exception (or a cut-off) skips the rest. *)
#[global] Instance result_bind : MBind result := λ A B k r,
  match r with
  | Ok a => k a
  | Raise e => Raise e
  | OutOfFuel => OutOfFuel
  end.
#[global] Instance result_ret : MRet result := @Ok.

(** Python list indexing: [l[i]] accepts [-len(l) <= i < len(l)], a negative
    index counting from the end. *)
Definition py_index (n : nat) (i : Z) : option nat :=
  if bool_decide (0 ≤ i < Z.of_nat n) then Some (Z.to_nat i)
  else if bool_decide (- Z.of_nat n ≤ i < 0) then Some (Z.to_nat (i + Z.of_nat n))
  else None.

Definition py_getitem {A} (l : list A) (i : Z) : result A :=
  match py_index (length l) i with
  | Some k => match l !! k with Some x => Ok x | None => Raise IndexError end
  | None => Raise IndexError
  end.

Definition py_setitem {A} (l : list A) (i : Z) (x : A) : result (list A) :=
  match py_index (length l) i with
  | Some k => Ok (<[k:=x]> l)
  | None => Raise IndexError
  end.

(** [l.index(x)]: position of the first occurrence, [ValueError] if absent. *)
Fixpoint py_list_index (l : list string) (x : string) : result Z :=
  match l with
  | [] => Raise (ValueError (x +:+ " is not in list"))
  | y :: l' =>
      if decide (y = x) then Ok 0
      else i ← py_list_index l' x; Ok (i + 1)
  end.

(** ** Data model *)

(** [action = None] is an epsilon transition. *)
Record Transition : Type := MkTransition {
  from_state : Z;
  to_state : Z;
  action : option string
}.

Record State : Type := MkState {
  name : string;
  incoming : list Transition;
  outgoing : list Transition
}.

(** A listener is an object; only its identity matters to the machine. *)
Definition FSMListener : Type := nat.

Record FiniteStateMachine : Type := MkFiniteStateMachine {
  states : list State;
  transitions : list Transition;
  current_state : Z;
  listeners : list FSMListener
}.

#[global] Instance Transition_eq_dec : EqDecision Transition.
Proof. solve_decision. Defined.

(** ** Listener callbacks *)

Inductive Event : Type :=
  | onStateEntered (state : Z)
  | onStateExited (state : Z)
  | onTransition (transition : Transition).

(** One callback invocation: who was called, with what, and the value of
    [current_state] at the time of the call.  A callback is an observer: it
    returns normally and does not call back into the machine.  A callback
    that raises is outside this model, so every statement below about a
    dispatching [transition_to] is about callbacks that return. *)
Record Call : Type := MkCall {
  callee : FSMListener;
  event : Event;
  seen_current : Z
}.

(** The mutable world a method runs in: the machine object and the log of
    callback invocations made so far. *)
Record World : Type := MkWorld {
  machine : FiniteStateMachine;
  calls : list Call
}.

(** Methods: read and write the world, return or raise. *)
Definition M (A : Type) : Type := World → result A * World.

#[global] Instance M_ret : MRet M := λ A a w, (Ok a, w).
#[global] Instance M_bind : MBind M := λ A B k c w,
  match c w with
  | (Ok a, w') => k a w'
  | (Raise e, w') => (Raise e, w')
  | (OutOfFuel, w') => (OutOfFuel, w')
  end.
Definition raise {A} (e : exn) : M A := λ w, (Raise e, w).
Definition lift {A} (r : result A) : M A := λ w, (r, w).
Definition self : M FiniteStateMachine := λ w, (Ok (machine w), w).
Definition set_current_state (s : Z) : M unit :=
  λ w, (Ok tt,
        MkWorld (MkFiniteStateMachine (states (machine w)) (transitions (machine w))
                                      s (listeners (machine w)))
                (calls w)).
Definition invoke (l : FSMListener) (e : Event) : M unit :=
  λ w, (Ok tt, MkWorld (machine w) (calls w ++ [MkCall l e (current_state (machine w))])).

(** [for x in xs: body x] *)
Fixpoint for_each {A} (xs : list A) (body : A → M unit) : M unit :=
  match xs with
  | [] => mret tt
  | x :: xs' => body x ;; for_each xs' body
  end.

(** ** Construction and loading *)

(** [FiniteStateMachine.__init__] *)
Definition init (initial_state : Z) (sts : list State) (ts : list Transition)
  : FiniteStateMachine :=
  MkFiniteStateMachine sts ts initial_state [].

(** [load_states], on the rows of [states.csv]. *)
Fixpoint load_states (rows : list (list string)) : result (list State) :=
  match rows with
  | [] => Ok []
  | row :: rows' =>
      nm ← py_getitem row 0;
      rest ← load_states rows';
      Ok (MkState nm [] [] :: rest)
  end.

Definition append_outgoing (sts : list State) (i : Z) (t : Transition)
  : result (list State) :=
  st ← py_getitem sts i;
  py_setitem sts i (MkState (name st) (incoming st) (outgoing st ++ [t])).

Definition append_incoming (sts : list State) (i : Z) (t : Transition)
  : result (list State) :=
  st ← py_getitem sts i;
  py_setitem sts i (MkState (name st) (incoming st ++ [t]) (outgoing st)).

(** The loop of [from_csv] over the rows of [transitions.csv]. *)
Fixpoint from_csv_rows (state_names : list string) (rows : list (list string))
    (sts : list State) (ts : list Transition)
  : result (list State * list Transition) :=
  match rows with
  | [] => Ok (sts, ts)
  | row :: rows' =>
      r1 ← py_getitem row 1;
      from_st ← py_list_index state_names r1;
      r2 ← py_getitem row 2;
      to_st ← py_list_index state_names r2;
      r0 ← py_getitem row 0;
      let transition :=
        MkTransition from_st to_st
          (if decide (r0 = EmptyString) then None else Some r0) in
      let ts := ts ++ [transition] in
      sts ← append_outgoing sts from_st transition;
      sts ← append_incoming sts to_st transition;
      from_csv_rows state_names rows' sts ts
  end.

(** [from_csv], on the parsed rows of the two files of the folder. *)
Definition from_csv (state_rows transition_rows : list (list string))
  : result FiniteStateMachine :=
  sts ← load_states state_rows;
  let state_names := map name sts in
  '(sts, ts) ← from_csv_rows state_names transition_rows sts [];
  Ok (init 0 sts ts).

(** ** Methods *)

Definition register_listener (listener : FSMListener) : M unit :=
  λ w, (Ok tt,
        MkWorld (MkFiniteStateMachine (states (machine w)) (transitions (machine w))
                   (current_state (machine w)) (listeners (machine w) ++ [listener]))
                (calls w)).

(** [def name(state: int)] is declared without a [self] parameter, so the
    call [fsm.name(state)] passes two positional arguments to a function of
    one and raises before the body runs. *)
Definition fsm_name (state : Z) : M string :=
  raise (TypeError "name() takes 1 positional argument but 2 were given").

(** The body of [name] as written, with [self] bound to the machine. *)
Definition name_body (m : FiniteStateMachine) (state : Z) : result string :=
  st ← py_getitem (states m) state; Ok (name st).

Fixpoint find_state_range (sts : list State) (nm : string) (range : list nat)
  : result Z :=
  match range with
  | [] => Ok (-1)
  | i :: range' =>
      st ← py_getitem sts (Z.of_nat i);
      if decide (name st = nm) then Ok (Z.of_nat i)
      else find_state_range sts nm range'
  end.

Definition find_state (nm : string) : M Z :=
  m ← self;
  lift (find_state_range (states m) nm (seq 0 (length (states m)))).

Fixpoint find_transition_in (ts : list Transition) (a b : Z) : option Transition :=
  match ts with
  | [] => None
  | transition :: ts' =>
      if decide (from_state transition = a ∧ to_state transition = b)
      then Some transition
      else find_transition_in ts' a b
  end.

Definition find_transition (a b : Z) : M (option Transition) :=
  m ← self;
  mret (find_transition_in (transitions m) a b).

Definition transition_to (state : Z) : M unit :=
  m ← self;
  found ← find_transition (current_state m) state;
  match found with
  | Some transition =>
      for_each (listeners m) (λ listener,
        m' ← self; invoke listener (onStateExited (current_state m'))) ;;
      set_current_state state ;;
      for_each (listeners m) (λ listener,
        m' ← self;
        invoke listener (onStateEntered (current_state m')) ;;
        invoke listener (onTransition transition))
  | None =>
      m' ← self;
      n1 ← lift (st ← py_getitem (states m') (current_state m'); Ok (name st));
      n2 ← lift (st ← py_getitem (states m') state; Ok (name st));
      raise (ValueError ("No transition defined between " +:+ n1 +:+ " and " +:+ n2))
  end.

(** The [for] loop of [__perform_action]; [rec] is the recursive call
    [self.__perform_action(None, _, visited)]. *)
Fixpoint perform_action_loop (rec : Z → list bool → result (list Z * list bool))
    (act : option string) (ts : list Transition)
    (possible_states : list Z) (visited : list bool)
  : result (list Z * list bool) :=
  match ts with
  | [] => Ok (possible_states, visited)
  | transition :: ts' =>
      if decide (action transition = act) then
        seen ← py_getitem visited (to_state transition);
        if negb seen then
          '(sub, visited) ← rec (to_state transition) visited;
          perform_action_loop rec act ts'
            (possible_states ++ [to_state transition] ++ sub) visited
        else perform_action_loop rec act ts' possible_states visited
      else perform_action_loop rec act ts' possible_states visited
  end.

(** [__perform_action]; the list [visited] is shared by all the calls, so it
    is threaded through and returned.  [fuel] bounds the recursion depth;
    the interpreter's own recursion limit is not modelled, so the statements
    are about machines whose epsilon chains stay below it. *)
Fixpoint perform_action (fuel : nat) (sts : list State) (act : option string)
    (state : Z) (visited : list bool) : result (list Z * list bool) :=
  match fuel with
  | O => OutOfFuel
  | S fuel' =>
      visited ← py_setitem visited state true;
      st ← py_getitem sts state;
      perform_action_loop (perform_action fuel' sts None) act (outgoing st) [] visited
  end.

Definition simulate_action (act : option string) : M (list Z) :=
  m ← self;
  let visited := replicate (length (states m)) false in
  lift ('(possible_states, _) ←
           perform_action (S (length (states m))) (states m) act
                          (current_state m) visited;
         Ok possible_states).

(** The [for next in neighbors] loop of [bfs]. *)
Fixpoint bfs_visit (neighbors : list Z) (current : Z)
    (q : list Z) (visited : list bool) (prev : list (option Z))
  : result (list Z * list bool * list (option Z)) :=
  match neighbors with
  | [] => Ok (q, visited, prev)
  | next :: neighbors' =>
      seen ← py_getitem visited next;
      if negb seen then
        visited' ← py_setitem visited next true;
        prev' ← py_setitem prev next (Some current);
        bfs_visit neighbors' current (q ++ [next]) visited' prev'
      else bfs_visit neighbors' current q visited prev
  end.

(** The [while len(q) > 0] loop of [bfs]. *)
Fixpoint bfs_search (fuel : nat) (sts : list State)
    (q : list Z) (visited : list bool) (prev : list (option Z))
  : result (list bool * list (option Z)) :=
  match fuel with
  | O => OutOfFuel
  | S fuel' =>
      match q with
      | [] => Ok (visited, prev)
      | current :: q' =>
          st ← py_getitem sts current;
          let neighbors := map to_state (outgoing st) in
          '(q'', visited', prev') ← bfs_visit neighbors current q' visited prev;
          bfs_search fuel' sts q'' visited' prev'
      end
  end.

(** The [while not at == None] loop of [bfs]. *)
Fixpoint bfs_walk (fuel : nat) (prev : list (option Z)) (at_ : option Z)
    (path : list Z) : result (list Z) :=
  match at_ with
  | None => Ok path
  | Some a =>
      match fuel with
      | O => OutOfFuel
      | S fuel' =>
          nxt ← py_getitem prev a;
          bfs_walk fuel' prev nxt (path ++ [a])
      end
  end.

Definition bfs_from (m : FiniteStateMachine) (end_ : Z) (start : Z)
  : result (list Z) :=
  let n := length (states m) in
  let q := [start] in
  visited ← py_setitem (replicate n false) start true;
  let prev := replicate n (@None Z) in
  '(visited, prev) ← bfs_search (S n) (states m) q visited prev;
  path ← bfs_walk (S n) prev (Some end_) [];
  let path := reverse path in
  p0 ← py_getitem path 0;
  Ok (if decide (p0 = start) then path else []).

(** [bfs(end, start=-1)]: an omitted [start] is the default value [-1]. *)
Definition bfs (end_ : Z) (start : option Z) : M (list Z) :=
  m ← self;
  lift (bfs_from m end_ (default (-1) start)).

(** ** The fixture of the specification *)

Definition fixture_state_rows : list (list string) :=
  [["start"]; ["middle"]; ["end"]].
Definition fixture_transition_rows : list (list string) :=
  [[EmptyString; "start"; "middle"]; ["press_a"; "middle"; "end"]].

Definition fixture : FiniteStateMachine :=
  let t0 := MkTransition 0 1 None in
  let t1 := MkTransition 1 2 (Some "press_a") in
  init 0 [MkState "start" [] [t0]; MkState "middle" [t0] [t1]; MkState "end" [t1] []]
         [t0; t1].

Definition fresh (m : FiniteStateMachine) : World := MkWorld m [].

(** ** Specification vocabulary *)

(** A state id is an index into the state sequence. *)
Definition valid_id (m : FiniteStateMachine) (s : Z) : Prop :=
  0 ≤ s < Z.of_nat (length (states m)).

(** [t] leads from [a] to [b]. *)
Definition connects (a b : Z) (t : Transition) : Prop :=
  from_state t = a ∧ to_state t = b.

(** [t] is the first element of [ts], in storage order, that leads from [a]
    to [b]. *)
Definition first_connecting (ts : list Transition) (a b : Z) (t : Transition) : Prop :=
  ∃ before after,
    ts = before ++ t :: after ∧ connects a b t ∧
    ∀ t', t' ∈ before → ¬ connects a b t'.

(** The invariants of the data model: endpoints are valid ids, the current
    state is a valid id, and the per-state lists mirror the transition
    sequence. *)
Record wf_machine (m : FiniteStateMachine) : Prop := {
  wf_endpoints : ∀ t, t ∈ transitions m →
    valid_id m (from_state t) ∧ valid_id m (to_state t);
  wf_current : valid_id m (current_state m);
  wf_outgoing : ∀ i st t, states m !! i = Some st →
    t ∈ outgoing st ↔ t ∈ transitions m ∧ from_state t = Z.of_nat i;
  wf_incoming : ∀ i st t, states m !! i = Some st →
    t ∈ incoming st ↔ t ∈ transitions m ∧ to_state t = Z.of_nat i
}.

(** The call log of a successful [transition_to]: every listener hears
    [onStateExited old] while [current_state] is still [old]; then, with
    [current_state] already [new], every listener hears [onStateEntered new]
    followed by [onTransition chosen]. *)
Definition exit_calls (ls : list FSMListener) (old : Z) : list Call :=
  map (λ l, MkCall l (onStateExited old) old) ls.
Definition enter_calls (ls : list FSMListener) (new : Z) (chosen : Transition)
  : list Call :=
  flat_map (λ l, [MkCall l (onStateEntered new) new;
                  MkCall l (onTransition chosen) new]) ls.

Definition with_current (m : FiniteStateMachine) (s : Z) : FiniteStateMachine :=
  MkFiniteStateMachine (states m) (transitions m) s (listeners m).

Definition invalid_transition_message (n1 n2 : string) : string :=
  "No transition defined between " +:+ n1 +:+ " and " +:+ n2.

(** The names of the state table: column 0 of every row. *)
Definition table_names (state_rows : list (list string)) : list string :=
  omap (λ row, row !! 0%nat) state_rows.

(** A row of the transition table that [from_csv] can process: three
    columns, the two names present in the state table. *)
Definition row_resolves (names : list string) (row : list string) : Prop :=
  ∃ r0 r1 r2, row !! 0%nat = Some r0 ∧ row !! 1%nat = Some r1 ∧
              row !! 2%nat = Some r2 ∧ r1 ∈ names ∧ r2 ∈ names.

(** [t] is the transition [from_csv] creates for [row]. *)
Definition created (names : list string) (row : list string) (t : Transition) : Prop :=
  ∃ r0 r1 r2, row !! 0%nat = Some r0 ∧ row !! 1%nat = Some r1 ∧
              row !! 2%nat = Some r2 ∧
              py_list_index names r1 = Ok (from_state t) ∧
              py_list_index names r2 = Ok (to_state t) ∧
              action t = (if decide (r0 = EmptyString) then None else Some r0).

(** [i] is the position of the first occurrence of [nm] in [names]. *)
Definition first_index_of (names : list string) (nm : string) (i : Z) : Prop :=
  0 ≤ i ∧ names !! Z.to_nat i = Some nm ∧
  ∀ j, (j < Z.to_nat i)%nat → names !! j ≠ Some nm.

(** [t] is the transition that the transition-table row [row] describes:
    it leads from the first state named by column 1 to the first state named
    by column 2, and its action is column 0, an empty column 0 meaning
    epsilon. *)
Definition described_by (names : list string) (row : list string) (t : Transition)
  : Prop :=
  ∃ r0 r1 r2, row !! 0%nat = Some r0 ∧ row !! 1%nat = Some r1 ∧
              row !! 2%nat = Some r2 ∧
              first_index_of names r1 (from_state t) ∧
              first_index_of names r2 (to_state t) ∧
              action t = (if decide (r0 = EmptyString) then None else Some r0).

(** *** Graph vocabulary *)

(** A stored transition labelled [act] leads from [u] to [v]. *)
Definition labelled_edge (m : FiniteStateMachine) (act : option string) (u v : Z)
  : Prop :=
  ∃ t, t ∈ transitions m ∧ connects u v t ∧ action t = act.

(** A stored transition, whatever its label, leads from [u] to [v]. *)
Definition stored_edge (m : FiniteStateMachine) (u v : Z) : Prop :=
  ∃ t, t ∈ transitions m ∧ connects u v t.

(** The same, read off the outgoing list of state [u], which is what the
    traversals look at. *)
Definition out_edge (sts : list State) (act : option string) (u v : Z) : Prop :=
  ∃ st t, 0 ≤ u ∧ sts !! Z.to_nat u = Some st ∧ t ∈ outgoing st ∧
          action t = act ∧ to_state t = v.

Definition out_step (sts : list State) (u v : Z) : Prop :=
  ∃ st t, 0 ≤ u ∧ sts !! Z.to_nat u = Some st ∧ t ∈ outgoing st ∧
          to_state t = v.

(** Every listed target is a valid id. *)
Definition targets_valid (sts : list State) : Prop :=
  ∀ i st t, sts !! i = Some st → t ∈ outgoing st →
            0 ≤ to_state t < Z.of_nat (length sts).

(** [avoiding_path edge avoid u v]: [v] is reached from [u] along [edge]
    through states, [u] and [v] included, none of which is in [avoid]. *)
Inductive avoiding_path (edge : Z → Z → Prop) (avoid : Z → Prop) : Z → Z → Prop :=
  | avoiding_here v : ¬ avoid v → avoiding_path edge avoid v v
  | avoiding_step u v w :
      ¬ avoid u → edge u v → avoiding_path edge avoid v w →
      avoiding_path edge avoid u w.

(** The epsilon closure of [u]: any chain of epsilon transitions. *)
Definition epsilon_closure (m : FiniteStateMachine) (u v : Z) : Prop :=
  avoiding_path (labelled_edge m None) (λ _, False) u v.

(** The closure [simulate_action] computes: chains of epsilon transitions
    that never pass through [root]. *)
Definition epsilon_closure_avoiding (m : FiniteStateMachine) (root u v : Z) : Prop :=
  avoiding_path (labelled_edge m None) (λ x, x = root) u v.

(** The order of a result [R] of [simulate_action]: a state that is not an
    immediate target of the action comes after a listed state with an
    epsilon transition to it. *)
Definition listed_after_discoverer (m : FiniteStateMachine) (act : option string)
    (root : Z) (R : list Z) : Prop :=
  ∀ i v, R !! i = Some v →
    labelled_edge m act root v ∨
    ∃ j x, (j < i)%nat ∧ R !! j = Some x ∧ labelled_edge m None x v.

(** *** The visited list *)

Definition marked (visited : list bool) (v : Z) : Prop :=
  visited !! Z.to_nat v = Some true.

Definition unmarked_count (visited : list bool) : nat :=
  length (filter (λ b, b = false) visited).

(** Every element of [R] other than an immediate target comes after the
    element it was discovered from. *)
Definition discovery_order (sts : list State) (immediate : Z → Prop) (R : list Z)
  : Prop :=
  ∀ i v, R !! i = Some v →
    immediate v ∨
    ∃ j x, (j < i)%nat ∧ R !! j = Some x ∧ out_edge sts None x v.

(** What one call [__perform_action(act, s, V)] on an unvisited [s] leaves
    behind: the result [R] and the visited list [V']. *)
Record explored (sts : list State) (act : option string) (s : Z)
    (V : list bool) (R : list Z) (V' : list bool) : Prop := {
  explored_length : length V' = length V;
  explored_count : (unmarked_count V' ≤ unmarked_count V)%nat;
  explored_marked : ∀ v, 0 ≤ v → marked V' v ↔ marked V v ∨ v = s ∨ v ∈ R;
  explored_nodup : NoDup R;
  explored_fresh : ∀ v, v ∈ R →
    0 ≤ v < Z.of_nat (length sts) ∧ ¬ marked V v ∧ v ≠ s;
  explored_sound : ∀ v, v ∈ R →
    ∃ w, out_edge sts act s w ∧
         avoiding_path (out_edge sts None) (λ x, marked V x ∨ x = s) w v;
  explored_closed : ∀ x y, x ∈ R → out_edge sts None x y → marked V' y;
  explored_root : ∀ w, out_edge sts act s w → marked V' w;
  explored_order : discovery_order sts (out_edge sts act s) R
}.

(** What the loop of [__perform_action] over the transitions [ts] adds to
    the result and leaves as visited list, started with [V]. *)
Record loop_explored (sts : list State) (act : option string)
    (ts : list Transition) (V : list bool) (R : list Z) (V' : list bool) : Prop := {
  loop_length : length V' = length V;
  loop_count : (unmarked_count V' ≤ unmarked_count V)%nat;
  loop_marked : ∀ v, 0 ≤ v → marked V' v ↔ marked V v ∨ v ∈ R;
  loop_nodup : NoDup R;
  loop_fresh : ∀ v, v ∈ R → 0 ≤ v < Z.of_nat (length sts) ∧ ¬ marked V v;
  loop_sound : ∀ v, v ∈ R →
    ∃ t, t ∈ ts ∧ action t = act ∧
         avoiding_path (out_edge sts None) (marked V) (to_state t) v;
  loop_closed : ∀ x y, x ∈ R → out_edge sts None x y → marked V' y;
  loop_targets : ∀ t, t ∈ ts → action t = act → marked V' (to_state t);
  loop_order : discovery_order sts
                 (λ v, ∃ t, t ∈ ts ∧ action t = act ∧ to_state t = v) R
}.

(** *** Paths *)

(** Consecutive ids of [p] are joined by [edge]. *)
Fixpoint chain (edge : Z → Z → Prop) (p : list Z) : Prop :=
  match p with
  | u :: rest =>
      match rest with
      | v :: _ => edge u v ∧ chain edge rest
      | [] => True
      end
  | [] => True
  end.

(** [p] is a path from [s] to [e]. *)
Definition path_between (edge : Z → Z → Prop) (s e : Z) (p : list Z) : Prop :=
  head p = Some s ∧ last p = Some e ∧ chain edge p.

Definition reachable (m : FiniteStateMachine) (s e : Z) : Prop :=
  ∃ p, path_between (stored_edge m) s e p.

(** *** The search state of [bfs]

    [d] is the depth at which each visited state was discovered; it is not
    stored by the code. *)
Definition set_depth (d : Z → nat) (v : Z) (k : nat) : Z → nat :=
  λ x, if decide (x = v) then k else d x.

Record bfs_inv (sts : list State) (start : Z) (d : Z → nat)
    (q : list Z) (visited : list bool) (prev : list (option Z)) : Prop := {
  inv_len_visited : length visited = length sts;
  inv_len_prev : length prev = length sts;
  inv_start_valid : 0 ≤ start < Z.of_nat (length sts);
  inv_start : marked visited start ∧ prev !! Z.to_nat start = Some None ∧
              d start = 0%nat;
  inv_queue : ∀ v, v ∈ q → 0 ≤ v < Z.of_nat (length sts) ∧ marked visited v;
  inv_prev : ∀ v, 0 ≤ v < Z.of_nat (length sts) → marked visited v → v ≠ start →
    ∃ u, prev !! Z.to_nat v = Some (Some u) ∧
         0 ≤ u < Z.of_nat (length sts) ∧ marked visited u ∧
         out_step sts u v ∧ d v = S (d u);
  inv_unseen : ∀ v, 0 ≤ v < Z.of_nat (length sts) → ¬ marked visited v →
    prev !! Z.to_nat v = Some None;
  inv_sorted : ∀ i j u w, (i ≤ j)%nat → q !! i = Some u → q !! j = Some w →
    (d u ≤ d w ≤ S (d u))%nat;
  inv_done : ∀ u w, 0 ≤ u < Z.of_nat (length sts) → marked visited u → u ∉ q →
    out_step sts u w → marked visited w ∧ (d w ≤ S (d u))%nat;
  inv_done_le : ∀ u w, 0 ≤ u < Z.of_nat (length sts) → marked visited u →
    u ∉ q → w ∈ q → (d u ≤ d w)%nat;
  inv_depth : ∀ v, 0 ≤ v < Z.of_nat (length sts) → marked visited v →
    (d v + unmarked_count visited < length sts)%nat
}.

(** A machine on which the epsilon closure and the computed closure differ:
    [0 -a-> 1], [1 -> 0], [0 -> 2]. *)
Definition detour : FiniteStateMachine :=
  let t0 := MkTransition 0 1 (Some "a") in
  let t1 := MkTransition 1 0 None in
  let t2 := MkTransition 0 2 None in
  init 0 [MkState "s0" [t1] [t0; t2]; MkState "s1" [t0] [t1]; MkState "s2" [t2] []]
         [t0; t1; t2].

(** ** [game_state.py]: stats and natures *)

(** The members of [Stat], in declaration order. *)
Inductive Stat : Type := HP | ATK | DEF | SP_ATK | SP_DEF | SPD | ACC | EVA.

(** [Stat.index], the first component of the member's value. *)
Definition stat_index (stat : Stat) : Z :=
  match stat with
  | HP => 0 | ATK => 1 | DEF => 2 | SP_ATK => 3
  | SP_DEF => 4 | SPD => 5 | ACC => 6 | EVA => 7
  end.

(** The three float literals of the nature table; the code only stores and
    returns them. *)
Inductive Modifier : Type :=
  | x0_9   (* 0.9 *)
  | x1_0   (* 1.0 *)
  | x1_1.  (* 1.1 *)

Inductive Nature : Type :=
  | ADAMANT | BASHFUL | BOLD | BRAVE | CALM | CAREFUL | DOCILE | GENTLE
  | HARDY | HASTY | IMPISH | JOLLY | LAX | LONELY | MILD | MODEST | NAIVE
  | NAUGHTY | QUIET | QUIRKY | RASH | RELAXED | SASSY | SERIOUS | TIMID.

(** [Nature.stat_mods]: attack, defense, special attack, special defense,
    speed. *)
Definition stat_mods (nature : Nature) : list Modifier :=
  match nature with
  | ADAMANT => [x1_1; x1_0; x0_9; x1_0; x1_0]
  | BASHFUL => [x1_0; x1_0; x1_0; x1_0; x1_0]
  | BOLD    => [x0_9; x1_1; x1_0; x1_0; x1_0]
  | BRAVE   => [x1_1; x1_0; x1_0; x1_0; x0_9]
  | CALM    => [x0_9; x1_0; x1_0; x1_1; x1_0]
  | CAREFUL => [x1_0; x1_0; x0_9; x1_1; x1_0]
  | DOCILE  => [x1_0; x1_0; x1_0; x1_0; x1_0]
  | GENTLE  => [x1_0; x0_9; x1_0; x1_1; x1_0]
  | HARDY   => [x1_0; x1_0; x1_0; x1_0; x1_0]
  | HASTY   => [x1_0; x0_9; x1_0; x1_0; x1_1]
  | IMPISH  => [x1_0; x1_1; x0_9; x1_0; x1_0]
  | JOLLY   => [x1_0; x1_0; x0_9; x1_0; x1_1]
  | LAX     => [x1_0; x1_1; x1_0; x0_9; x1_0]
  | LONELY  => [x1_1; x0_9; x1_0; x1_0; x1_0]
  | MILD    => [x1_0; x0_9; x1_1; x1_0; x1_0]
  | MODEST  => [x0_9; x1_0; x1_1; x1_0; x1_0]
  | NAIVE   => [x1_0; x1_0; x1_0; x0_9; x1_1]
  | NAUGHTY => [x1_1; x1_0; x1_0; x0_9; x1_0]
  | QUIET   => [x1_0; x1_0; x1_1; x1_0; x0_9]
  | QUIRKY  => [x1_0; x1_0; x1_0; x1_0; x1_0]
  | RASH    => [x1_0; x1_0; x1_1; x0_9; x1_0]
  | RELAXED => [x1_0; x1_1; x1_0; x1_0; x0_9]
  | SASSY   => [x1_0; x1_0; x1_0; x1_1; x0_9]
  | SERIOUS => [x1_0; x1_0; x1_0; x1_0; x1_0]
  | TIMID   => [x0_9; x1_0; x1_0; x1_0; x1_1]
  end.

(** [Nature.stat_mod]: [self.stat_mods[stat.index - 1]]. *)
Definition stat_mod (nature : Nature) (stat : Stat) : result Modifier :=
  py_getitem (stat_mods nature) (stat_index stat - 1).

(** ** Vocabulary for the further properties *)

(** The id of the last state, and the reading of [-1] as a list index. *)
Definition last_id (m : FiniteStateMachine) : Z :=
  Z.of_nat (length (states m)) - 1.

Definition index_read (n : nat) (x : Z) : Z :=
  if decide (x = -1) then Z.of_nat n - 1 else x.

Definition result_map {A B} (f : A → B) (r : result A) : result B :=
  match r with
  | Ok a => Ok (f a)
  | Raise e => Raise e
  | OutOfFuel => OutOfFuel
  end.

Definition read_queue (n : nat) (q : list Z) : list Z :=
  index_read n <$> q.
Definition read_at (n : nat) (at_ : option Z) : option Z :=
  index_read n <$> at_.
Definition read_prev (n : nat) (P : list (option Z)) : list (option Z) :=
  read_at n <$> P.

(** What the search started at [-1] keeps true: the last state is marked,
    and its id never enters the queue or [prev]. *)
Record last_kept (n : nat) (q : list Z) (V : list bool) (P : list (option Z))
  : Prop := {
  lk_len_V : length V = n;
  lk_len_P : length P = n;
  lk_marked : V !! (n - 1)%nat = Some true;
  lk_queue : ∀ x, x ∈ q → x ≠ Z.of_nat n - 1;
  lk_prev : ∀ i, P !! i ≠ Some (Some (Z.of_nat n - 1))
}.

(** The same topology and listeners. *)
Definition same_topology (m m' : FiniteStateMachine) : Prop :=
  states m' = states m ∧ transitions m' = transitions m ∧
  listeners m' = listeners m.

(** A stat a nature can modify, by position in [stat_mods]. *)
Definition raised_at (nature : Nature) (i : nat) : Prop :=
  stat_mods nature !! i = Some x1_1.
Definition lowered_at (nature : Nature) (i : nat) : Prop :=
  stat_mods nature !! i = Some x0_9.
Definition is_neutral (nature : Nature) : Prop :=
  stat_mods nature = [x1_0; x1_0; x1_0; x1_0; x1_0].

(** Case analysis over the nature table. *)
Local Ltac nature_row i j :=
  exists i, j; split; [done|]; split; [reflexivity|]; split; [reflexivity|];
  let k := fresh "k" in
  intros k ? ? ?; destruct k as [|[|[|[|[|k]]]]]; first [reflexivity | lia].

Local Ltac nature_of_pair nature :=
  exists nature; split; [reflexivity|]; split; [reflexivity|];
  let other := fresh "other" in
  intros other ? ?; destruct other; (reflexivity || discriminate).

(** ** Indexing lemmas *)

Lemma py_index_valid (n : nat) (i : Z) :
  0 ≤ i < Z.of_nat n → py_index n i = Some (Z.to_nat i).
Proof.
  intros Hi. unfold py_index. by rewrite bool_decide_eq_true_2.
Qed.

Lemma py_getitem_valid {A} (l : list A) (i : Z) (x : A) :
  0 ≤ i → l !! Z.to_nat i = Some x → py_getitem l i = Ok x.
Proof.
  intros Hi Hx. unfold py_getitem.
  rewrite py_index_valid.
  - by rewrite Hx.
  - apply lookup_lt_Some in Hx. lia.
Qed.

Lemma py_getitem_nat {A} (l : list A) (i : nat) (x : A) :
  l !! i = Some x → py_getitem l (Z.of_nat i) = Ok x.
Proof.
  intros Hx. apply py_getitem_valid; [lia|]. by rewrite Nat2Z.id.
Qed.

Lemma py_setitem_valid {A} (l : list A) (i : Z) (x : A) :
  0 ≤ i < Z.of_nat (length l) → py_setitem l i x = Ok (<[Z.to_nat i:=x]> l).
Proof.
  intros Hi. unfold py_setitem. by rewrite py_index_valid.
Qed.

Lemma lookup_valid {A} (l : list A) (i : Z) :
  0 ≤ i < Z.of_nat (length l) → ∃ x, l !! Z.to_nat i = Some x.
Proof.
  intros Hi. apply lookup_lt_is_Some_2. lia.
Qed.

(** ** The fixture *)

Example fixture_loaded :
  from_csv fixture_state_rows fixture_transition_rows = Ok fixture.
Proof. reflexivity. Qed.

Example fixture_current : current_state fixture = 0.
Proof. reflexivity. Qed.

Example fixture_transition_to_middle :
  transition_to 1 (fresh fixture) = (Ok tt, fresh (with_current fixture 1)).
Proof. reflexivity. Qed.

Example fixture_simulate_from_middle :
  simulate_action (Some "press_a") (fresh (with_current fixture 1))
  = (Ok [2], fresh (with_current fixture 1)).
Proof. reflexivity. Qed.

Example fixture_simulate_from_start :
  simulate_action (Some "press_a") (fresh fixture) = (Ok [], fresh fixture).
Proof. reflexivity. Qed.

(** ** [find_transition] *)

Lemma find_transition_in_Some ts a b t :
  find_transition_in ts a b = Some t → first_connecting ts a b t.
Proof.
  induction ts as [|x ts IH]; simpl; [done|].
  case_decide as Hx.
  - intros [= <-]. exists [], ts. split_and!; [done|done|].
    intros t' Ht'. by apply elem_of_nil in Ht'.
  - intros Hf. destruct (IH Hf) as (before & after & -> & Hc & Hfirst).
    exists (x :: before), after. split_and!; [done|done|].
    intros t' [->|Ht']%elem_of_cons; [done|by apply Hfirst].
Qed.

Lemma find_transition_in_None ts a b :
  find_transition_in ts a b = None ↔ ∀ t, t ∈ ts → ¬ connects a b t.
Proof.
  induction ts as [|x ts IH]; simpl.
  - split; [|done]. intros _ t Ht. by apply elem_of_nil in Ht.
  - case_decide as Hx.
    + split; [done|]. intros Hall. exfalso. apply (Hall x); [left|done].
    + rewrite IH. split.
      * intros Hall t [->|Ht]%elem_of_cons; [done|by apply Hall].
      * intros Hall t Ht. apply Hall. by right.
Qed.

Lemma first_connecting_find ts a b t :
  first_connecting ts a b t → find_transition_in ts a b = Some t.
Proof.
  intros (before & after & -> & Hc & Hfirst).
  induction before as [|x before IH]; simpl.
  - by rewrite decide_True.
  - rewrite decide_False.
    + apply IH. intros t' Ht'. apply Hfirst. by right.
    + apply Hfirst. left.
Qed.

(** C8: [find_transition a b] returns the first stored transition from [a]
    to [b] in storage order, the none sentinel when no stored transition
    connects them, and only ever a stored transition: for [a = b] with no
    stored loop the answer is none, the implicit reflexive epsilon edge is
    never produced. *)
Theorem find_transition_first_stored (w : World) (a b : Z) :
  ∃ r, find_transition a b w = (Ok r, w) ∧
    match r with
    | Some t =>
        first_connecting (transitions (machine w)) a b t ∧
        t ∈ transitions (machine w)
    | None => ∀ t, t ∈ transitions (machine w) → ¬ connects a b t
    end ∧
    ((∀ t, t ∈ transitions (machine w) → ¬ connects a a t) →
     find_transition a a w = (Ok None, w)).
Proof.
  exists (find_transition_in (transitions (machine w)) a b).
  split; [done|]. split.
  - destruct (find_transition_in _ a b) as [t|] eqn:Hf.
    + pose proof (find_transition_in_Some _ _ _ _ Hf) as Hfirst.
      split; [done|]. destruct Hfirst as (before & after & -> & _).
      apply elem_of_app. right. left.
    + by apply find_transition_in_None.
  - intros Hnone. apply find_transition_in_None in Hnone.
    unfold find_transition, self. simpl. unfold mbind, M_bind. simpl.
    by rewrite Hnone.
Qed.

(** C10: [find_transition] never raises, whatever the integers [a] and [b]
    (negative or out of range alike); its answer depends on the stored
    transition list only, and it is the none sentinel whenever no stored
    transition leads from [a] to [b]. *)
Theorem find_transition_total (w : World) (a b : Z) :
  (∃ r, find_transition a b w = (Ok r, w) ∧
        ((∀ t, t ∈ transitions (machine w) → ¬ connects a b t) → r = None)) ∧
  (∀ w', transitions (machine w') = transitions (machine w) →
         (find_transition a b w').1 = (find_transition a b w).1).
Proof.
  split.
  - exists (find_transition_in (transitions (machine w)) a b).
    split; [done|]. by intros Hnone%find_transition_in_None.
  - intros w' Heq. unfold find_transition, self, mbind, M_bind. simpl.
    by rewrite Heq.
Qed.

(** ** [transition_to] *)

Lemma M_bind_Ok {A B} (c : M A) (k : A → M B) (w : World) (a : A) (w' : World) :
  c w = (Ok a, w') → mbind k c w = k a w'.
Proof. intros Hc. unfold mbind, M_bind. by rewrite Hc. Qed.

Lemma for_each_exit (ls : list FSMListener) (w : World) :
  for_each ls (λ listener,
    m' ← self; invoke listener (onStateExited (current_state m'))) w
  = (Ok tt, MkWorld (machine w)
              (calls w ++ exit_calls ls (current_state (machine w)))).
Proof.
  revert w. induction ls as [|l ls IH]; intros [m cs]; simpl.
  - unfold mret, M_ret. by rewrite app_nil_r.
  - unfold mbind, M_bind, self, invoke in *. simpl. rewrite IH. simpl.
    by rewrite <- app_assoc.
Qed.

Lemma for_each_enter (ls : list FSMListener) (chosen : Transition) (w : World) :
  for_each ls (λ listener,
    m' ← self;
    invoke listener (onStateEntered (current_state m')) ;;
    invoke listener (onTransition chosen)) w
  = (Ok tt, MkWorld (machine w)
              (calls w ++ enter_calls ls (current_state (machine w)) chosen)).
Proof.
  revert w. induction ls as [|l ls IH]; intros [m cs]; simpl.
  - unfold mret, M_ret. by rewrite app_nil_r.
  - unfold mbind, M_bind, self, invoke in *. simpl. rewrite IH. simpl.
    by rewrite <- !app_assoc.
Qed.

Lemma transition_to_found (w : World) (state : Z) (chosen : Transition) :
  find_transition_in (transitions (machine w)) (current_state (machine w)) state
    = Some chosen →
  transition_to state w
  = (Ok tt,
     MkWorld (with_current (machine w) state)
       (calls w ++ exit_calls (listeners (machine w)) (current_state (machine w))
                ++ enter_calls (listeners (machine w)) state chosen)).
Proof.
  intros Hf. unfold transition_to.
  rewrite (M_bind_Ok _ _ w (machine w) w) by done.
  rewrite (M_bind_Ok _ _ w (Some chosen) w)
    by (unfold find_transition; rewrite (M_bind_Ok _ _ w (machine w) w) by done;
        unfold mret, M_ret; by rewrite Hf).
  erewrite M_bind_Ok by apply for_each_exit.
  erewrite M_bind_Ok by reflexivity.
  rewrite for_each_enter. simpl. by rewrite <- app_assoc.
Qed.

(** C3: when some stored transition leads from [current_state] to [t],
    [transition_to t] succeeds; the transition it uses is the first such one
    in storage order; every listener, in registration order, receives
    [onStateExited old] before [current_state] changes; [current_state]
    becomes [t]; then every listener, in registration order, receives
    [onStateEntered t] followed by [onTransition chosen]. *)
Theorem transition_to_direct_edge (w : World) (t : Z) :
  (∃ t0, t0 ∈ transitions (machine w) ∧
         connects (current_state (machine w)) t t0) →
  ∃ chosen,
    first_connecting (transitions (machine w)) (current_state (machine w)) t chosen ∧
    transition_to t w
    = (Ok tt,
       MkWorld (with_current (machine w) t)
         (calls w
          ++ exit_calls (listeners (machine w)) (current_state (machine w))
          ++ enter_calls (listeners (machine w)) t chosen)).
Proof.
  intros (t0 & Hin & Hc).
  destruct (find_transition_in (transitions (machine w))
              (current_state (machine w)) t) as [chosen|] eqn:Hf.
  - exists chosen. split.
    + by apply find_transition_in_Some.
    + by apply transition_to_found.
  - exfalso. eapply find_transition_in_None; eauto.
Qed.

Lemma transition_to_direct_edge_witness :
  let w := MkWorld (MkFiniteStateMachine (states fixture) (transitions fixture)
                      0 [7%nat; 8%nat]) [] in
  ∃ chosen,
    first_connecting (transitions (machine w)) (current_state (machine w)) 1 chosen ∧
    transition_to 1 w
    = (Ok tt,
       MkWorld (with_current (machine w) 1)
         (calls w
          ++ exit_calls (listeners (machine w)) (current_state (machine w))
          ++ enter_calls (listeners (machine w)) 1 chosen)).
Proof.
  intros w. apply (transition_to_direct_edge w 1).
  exists (MkTransition 0 1 None). split; [left|done].
Defined.

(** C4: for valid ids, when no stored transition leads from [current_state]
    to [t], [transition_to t] raises the invalid-transition [ValueError]
    whose message carries the names of both states, and leaves the machine
    and the call log as they were: [current_state] is unchanged and no
    listener was invoked. *)
Theorem transition_to_no_edge (w : World) (t : Z) :
  valid_id (machine w) (current_state (machine w)) →
  valid_id (machine w) t →
  (∀ t0, t0 ∈ transitions (machine w) →
         ¬ connects (current_state (machine w)) t t0) →
  ∃ st_cur st_t,
    states (machine w) !! Z.to_nat (current_state (machine w)) = Some st_cur ∧
    states (machine w) !! Z.to_nat t = Some st_t ∧
    transition_to t w
    = (Raise (ValueError (invalid_transition_message (name st_cur) (name st_t))), w).
Proof.
  intros Hcur Ht Hnone.
  destruct (lookup_valid _ _ Hcur) as [st_cur Hst_cur].
  destruct (lookup_valid _ _ Ht) as [st_t Hst_t].
  exists st_cur, st_t. split_and!; [done|done|].
  apply find_transition_in_None in Hnone.
  destruct w as [m cs]. simpl in *.
  unfold transition_to, find_transition.
  unfold mbind, M_bind, self, mret, M_ret, lift, raise. simpl. rewrite Hnone.
  rewrite (py_getitem_valid _ _ st_cur); [|apply Hcur|done].
  rewrite (py_getitem_valid _ _ st_t); [|apply Ht|done].
  done.
Qed.

Lemma transition_to_no_edge_witness :
  ∃ st_cur st_t,
    states fixture !! Z.to_nat 0 = Some st_cur ∧
    states fixture !! Z.to_nat 2 = Some st_t ∧
    transition_to 2 (fresh fixture)
    = (Raise (ValueError (invalid_transition_message (name st_cur) (name st_t))),
       fresh fixture).
Proof.
  apply (transition_to_no_edge (fresh fixture) 2).
  - unfold valid_id. simpl. lia.
  - unfold valid_id. simpl. lia.
  - intros t0 Hin [Hf Hto]. simpl in *.
    apply elem_of_cons in Hin as [->|Hin]; [discriminate Hto|].
    apply elem_of_cons in Hin as [->|Hin]; [discriminate Hf|].
    by apply elem_of_nil in Hin.
Defined.

(** ** [name] and [find_state] *)

Lemma find_state_range_app (pre rest : list State) (nm : string) (s : nat) (st : State) :
  rest !! s = Some st → name st = nm →
  (∀ i st', (i < s)%nat → rest !! i = Some st' → name st' ≠ nm) →
  find_state_range (pre ++ rest) nm (seq (length pre) (length rest))
  = Ok (Z.of_nat (length pre + s)).
Proof.
  revert pre s. induction rest as [|x rest IH]; intros pre s Hs Hnm Hfirst; [done|].
  simpl.
  assert ((pre ++ x :: rest) !! length pre = Some x) as Hx.
  { by rewrite lookup_app_r, Nat.sub_diag by lia. }
  rewrite (py_getitem_nat _ _ _ Hx). simpl.
  case_decide as Hname.
  - destruct s as [|s]; [by rewrite Nat.add_0_r|].
    exfalso. apply (Hfirst 0%nat x); [lia|done|done].
  - destruct s as [|s]; [simpl in Hs; congruence|].
    specialize (IH (pre ++ [x]) s Hs Hnm).
    rewrite <- app_assoc, length_app in IH. simpl in IH.
    rewrite Nat.add_1_r in IH. rewrite IH.
    + f_equal. lia.
    + intros i st' Hi Hst'. apply (Hfirst (S i) st'); [lia|done].
Qed.

Lemma find_state_range_absent (pre rest : list State) (nm : string) :
  (∀ st, st ∈ rest → name st ≠ nm) →
  find_state_range (pre ++ rest) nm (seq (length pre) (length rest)) = Ok (-1).
Proof.
  revert pre. induction rest as [|x rest IH]; intros pre Hnone; [done|].
  simpl.
  assert ((pre ++ x :: rest) !! length pre = Some x) as Hx.
  { by rewrite lookup_app_r, Nat.sub_diag by lia. }
  rewrite (py_getitem_nat _ _ _ Hx). simpl.
  rewrite decide_False by (apply Hnone; left).
  specialize (IH (pre ++ [x])).
  rewrite <- app_assoc, length_app in IH. simpl in IH.
  rewrite Nat.add_1_r in IH. apply IH.
  intros st Hst. apply Hnone. by right.
Qed.

(** [find_state] returns the first index carrying the name. *)
Lemma find_state_first (w : World) (nm : string) (s : nat) (st : State) :
  states (machine w) !! s = Some st → name st = nm →
  (∀ i st', (i < s)%nat → states (machine w) !! i = Some st' → name st' ≠ nm) →
  find_state nm w = (Ok (Z.of_nat s), w).
Proof.
  intros Hs Hnm Hfirst.
  pose proof (find_state_range_app [] _ nm s st Hs Hnm Hfirst) as Hrange.
  simpl in Hrange.
  unfold find_state. rewrite (M_bind_Ok _ _ w (machine w) w) by done.
  unfold lift. by rewrite Hrange.
Qed.

(** A miss is the sentinel [-1], not an exception. *)
Lemma find_state_missing (w : World) (nm : string) :
  (∀ st, st ∈ states (machine w) → name st ≠ nm) →
  find_state nm w = (Ok (-1), w).
Proof.
  intros Hnone.
  pose proof (find_state_range_absent [] _ nm Hnone) as Hrange.
  simpl in Hrange.
  unfold find_state. rewrite (M_bind_Ok _ _ w (machine w) w) by done.
  unfold lift. by rewrite Hrange.
Qed.

(** With [self] bound as the callers expect and names unique, the body of
    [name] followed by [find_state] is the identity on valid ids. *)
Lemma find_state_name_body (w : World) (s : Z) :
  NoDup (map name (states (machine w))) →
  valid_id (machine w) s →
  ∃ nm, name_body (machine w) s = Ok nm ∧ find_state nm w = (Ok s, w).
Proof.
  intros Hnodup Hs. destruct (lookup_valid _ _ Hs) as [st Hst].
  exists (name st). split.
  - unfold name_body. by rewrite (py_getitem_valid _ _ st) by (done || apply Hs).
  - rewrite (find_state_first w (name st) (Z.to_nat s) st); [|done|done|].
    + f_equal. f_equal. unfold valid_id in Hs. lia.
    + intros i st' Hi Hst' Heq.
      assert (i = Z.to_nat s); [|lia].
      eapply (NoDup_lookup _ i (Z.to_nat s) (name st)); [done| |].
      * by rewrite list_lookup_fmap, Hst', <- Heq.
      * by rewrite list_lookup_fmap, Hst.
Qed.

(** C2: on the code, [name] cannot be called as a method: for every machine
    and every id the call raises [TypeError], so [find_state(name(s))] never
    yields [s]; on the fixture with [s = 0] in particular. *)
Theorem name_call_raises (w : World) (s : Z) :
  (nm ← fsm_name s; find_state nm) w
  = (Raise (TypeError "name() takes 1 positional argument but 2 were given"), w)
  ∧ (nm ← fsm_name 0; find_state nm) (fresh fixture) ≠ (Ok 0, fresh fixture).
Proof. split; [done|discriminate]. Qed.

(** ** [simulate_action] is a query *)

(** C7: [simulate_action] returns the world it was given: [current_state],
    states, transitions, listeners and the call log are untouched; a second
    call with the same label returns the same sequence. *)
Theorem simulate_action_pure (w : World) (act : option string) :
  (simulate_action act w).2 = w ∧
  (simulate_action act (simulate_action act w).2).1 = (simulate_action act w).1 ∧
  (simulate_action act (simulate_action act w).2).2 = w.
Proof.
  assert ((simulate_action act w).2 = w) as Hframe.
  { unfold simulate_action, mbind, M_bind, self, lift. done. }
  by rewrite !Hframe.
Qed.

(** ** [bfs] with the default start *)

(** C1: on the three-state fixture with [current_state = 0], [bfs(2)] with
    [start] omitted returns the empty list: the default [-1] is used as a
    list index and selects the last state, not [current_state].  With the
    start given explicitly the path is [[0, 1, 2]]. *)
Theorem bfs_default_start_fixture :
  current_state fixture = 0 ∧
  bfs 2 None (fresh fixture) = (Ok [], fresh fixture) ∧
  bfs 2 (Some 0) (fresh fixture) = (Ok [0; 1; 2], fresh fixture).
Proof. split_and!; reflexivity. Qed.

(** ** Loading *)

Lemma rbind_Ok {A B} (a : A) (k : A → result B) : mbind k (Ok a) = k a.
Proof. done. Qed.

Lemma rbind_Ok_inv {A B} (r : result A) (k : A → result B) (b : B) :
  mbind k r = Ok b → ∃ a, r = Ok a ∧ k a = Ok b.
Proof. destruct r as [a| |]; simpl; [eauto|done|done]. Qed.

Lemma py_getitem_Ok_inv {A} (l : list A) (i : Z) (x : A) :
  0 ≤ i → py_getitem l i = Ok x → l !! Z.to_nat i = Some x.
Proof.
  intros Hi. unfold py_getitem, py_index.
  case_bool_decide as H1.
  - destruct (l !! Z.to_nat i); [by intros [= ->]|done].
  - case_bool_decide as H2; [lia|done].
Qed.

Lemma py_getitem_fuel {A} (l : list A) (i : Z) : py_getitem l i ≠ OutOfFuel.
Proof.
  unfold py_getitem. destruct (py_index _ _) as [k|]; [|done].
  by destruct (l !! k).
Qed.

Lemma py_setitem_fuel {A} (l : list A) (i : Z) (x : A) : py_setitem l i x ≠ OutOfFuel.
Proof. unfold py_setitem. by destruct (py_index _ _). Qed.

Lemma py_list_index_fuel (l : list string) (x : string) : py_list_index l x ≠ OutOfFuel.
Proof.
  induction l as [|y l IH]; simpl; [done|].
  case_decide; [done|]. by destruct (py_list_index l x).
Qed.

Lemma py_list_index_Ok (l : list string) (x : string) (i : Z) :
  py_list_index l x = Ok i →
  0 ≤ i < Z.of_nat (length l) ∧ l !! Z.to_nat i = Some x.
Proof.
  revert i. induction l as [|y l IH]; intros i; simpl; [done|].
  case_decide as Hy.
  - intros [= <-]. subst. split; [lia|done].
  - intros (j & Hj & [= <-])%rbind_Ok_inv.
    destruct (IH j Hj) as [Hrange Hlook]. split; [lia|].
    replace (Z.to_nat (j + 1)) with (S (Z.to_nat j)) by lia. done.
Qed.

Lemma py_list_index_first (l : list string) (x : string) (i : Z) :
  py_list_index l x = Ok i →
  ∀ j, (j < Z.to_nat i)%nat → l !! j ≠ Some x.
Proof.
  revert i. induction l as [|y l IH]; intros i; simpl; [done|].
  case_decide as Hy.
  - intros [= <-] j Hj. simpl in Hj. lia.
  - intros (k & Hk & [= <-])%rbind_Ok_inv j Hj.
    apply py_list_index_Ok in Hk as Hrange.
    destruct j as [|j]; simpl; [congruence|].
    apply (IH k Hk). lia.
Qed.

Lemma py_list_index_elem_of (l : list string) (x : string) :
  x ∈ l → ∃ i, py_list_index l x = Ok i.
Proof.
  induction l as [|y l IH]; intros Hx; [by apply elem_of_nil in Hx|].
  simpl. case_decide as Hy; [eauto|].
  apply elem_of_cons in Hx as [->|Hx]; [done|].
  destruct (IH Hx) as [i ->]. simpl. eauto.
Qed.

Lemma load_states_fuel (rows : list (list string)) : load_states rows ≠ OutOfFuel.
Proof.
  induction rows as [|row rows IH]; simpl; [done|].
  pose proof (py_getitem_fuel row 0).
  destruct (py_getitem row 0); simpl; [|done|done].
  by destruct (load_states rows).
Qed.

Lemma load_states_Ok (rows : list (list string)) (sts : list State) :
  load_states rows = Ok sts →
  sts = map (λ nm, MkState nm [] []) (table_names rows).
Proof.
  revert sts. induction rows as [|row rows IH]; intros sts; simpl.
  - by intros [= <-].
  - intros (nm & Hnm & (rest & Hrest & [= <-])%rbind_Ok_inv)%rbind_Ok_inv.
    apply py_getitem_Ok_inv in Hnm; [|done].
    destruct row as [|x row]; [done|]. simpl in Hnm. injection Hnm as ->.
    unfold table_names. simpl. f_equal. by apply IH.
Qed.

Lemma load_states_nonempty (rows : list (list string)) :
  (∀ row, row ∈ rows → row ≠ []) →
  load_states rows = Ok (map (λ nm, MkState nm [] []) (table_names rows)).
Proof.
  intros Hrows.
  assert (∃ sts, load_states rows = Ok sts) as [sts Hsts].
  { induction rows as [|row rows IH]; simpl; [eauto|].
    destruct row as [|nm row]; [exfalso; eapply Hrows; [left|done]|].
    destruct IH as [sts ->]; [intros r Hr; apply Hrows; by right|].
    simpl. eauto. }
  rewrite Hsts. f_equal. by apply load_states_Ok.
Qed.

Lemma table_names_states (rows : list (list string)) :
  map name (map (λ nm, MkState nm [] []) (table_names rows)) = table_names rows.
Proof.
  rewrite map_map. simpl. apply map_id.
Qed.

Lemma append_outgoing_valid (sts : list State) (i : Z) (t : Transition) (st : State) :
  0 ≤ i → sts !! Z.to_nat i = Some st →
  append_outgoing sts i t
  = Ok (<[Z.to_nat i := MkState (name st) (incoming st) (outgoing st ++ [t])]> sts).
Proof.
  intros Hi Hst. unfold append_outgoing.
  rewrite (py_getitem_valid _ _ st) by done. simpl.
  apply py_setitem_valid. apply lookup_lt_Some in Hst. lia.
Qed.

Lemma append_incoming_valid (sts : list State) (i : Z) (t : Transition) (st : State) :
  0 ≤ i → sts !! Z.to_nat i = Some st →
  append_incoming sts i t
  = Ok (<[Z.to_nat i := MkState (name st) (incoming st ++ [t]) (outgoing st)]> sts).
Proof.
  intros Hi Hst. unfold append_incoming.
  rewrite (py_getitem_valid _ _ st) by done. simpl.
  apply py_setitem_valid. apply lookup_lt_Some in Hst. lia.
Qed.

Lemma append_outgoing_fuel sts i t : append_outgoing sts i t ≠ OutOfFuel.
Proof.
  unfold append_outgoing. pose proof (py_getitem_fuel sts i).
  destruct (py_getitem sts i); simpl; [apply py_setitem_fuel|done|done].
Qed.

Lemma append_incoming_fuel sts i t : append_incoming sts i t ≠ OutOfFuel.
Proof.
  unfold append_incoming. pose proof (py_getitem_fuel sts i).
  destruct (py_getitem sts i); simpl; [apply py_setitem_fuel|done|done].
Qed.

Lemma from_csv_rows_fuel names rows sts ts :
  from_csv_rows names rows sts ts ≠ OutOfFuel.
Proof.
  revert sts ts. induction rows as [|row rows IH]; intros sts ts; simpl; [done|].
  pose proof (py_getitem_fuel row 1).
  destruct (py_getitem row 1) as [r1| |]; simpl; [|done|done].
  pose proof (py_list_index_fuel names r1).
  destruct (py_list_index names r1) as [i1| |]; simpl; [|done|done].
  pose proof (py_getitem_fuel row 2).
  destruct (py_getitem row 2) as [r2| |]; simpl; [|done|done].
  pose proof (py_list_index_fuel names r2).
  destruct (py_list_index names r2) as [i2| |]; simpl; [|done|done].
  pose proof (py_getitem_fuel row 0).
  destruct (py_getitem row 0) as [r0| |]; simpl; [|done|done].
  match goal with |- context [append_outgoing ?a ?b ?c] =>
    pose proof (append_outgoing_fuel a b c);
    destruct (append_outgoing a b c) as [sts1| |]; simpl; [|done|done] end.
  match goal with |- context [append_incoming ?a ?b ?c] =>
    pose proof (append_incoming_fuel a b c);
    destruct (append_incoming a b c) as [sts2| |]; simpl; [|done|done] end.
  apply IH.
Qed.

(** A load that succeeds has resolved every name of every row. *)
Lemma from_csv_rows_Ok_names names rows sts ts out :
  from_csv_rows names rows sts ts = Ok out →
  ∀ row nm, row ∈ rows → row !! 1%nat = Some nm ∨ row !! 2%nat = Some nm →
            nm ∈ names.
Proof.
  revert sts ts. induction rows as [|row rows IH]; intros sts ts Hok row' nm Hin Hnm.
  { by apply elem_of_nil in Hin. }
  simpl in Hok.
  apply rbind_Ok_inv in Hok as (r1 & Hr1 & Hok).
  apply rbind_Ok_inv in Hok as (i1 & Hi1 & Hok).
  apply rbind_Ok_inv in Hok as (r2 & Hr2 & Hok).
  apply rbind_Ok_inv in Hok as (i2 & Hi2 & Hok).
  apply rbind_Ok_inv in Hok as (r0 & Hr0 & Hok).
  apply rbind_Ok_inv in Hok as (sts1 & Hsts1 & Hok).
  apply rbind_Ok_inv in Hok as (sts2 & Hsts2 & Hok).
  apply elem_of_cons in Hin as [->|Hin]; [|by eapply IH].
  apply py_getitem_Ok_inv in Hr1; [|done].
  apply py_getitem_Ok_inv in Hr2; [|done].
  apply py_list_index_Ok in Hi1 as [_ Hi1]. apply py_list_index_Ok in Hi2 as [_ Hi2].
  change (Z.to_nat 1) with 1%nat in Hr1. change (Z.to_nat 2) with 2%nat in Hr2.
  destruct Hnm as [Hnm|Hnm].
  - assert (nm = r1) as -> by congruence. by eapply list_elem_of_lookup_2.
  - assert (nm = r2) as -> by congruence. by eapply list_elem_of_lookup_2.
Qed.

(** One iteration of the loader appends the new transition to the outgoing
    list of its source and to the incoming list of its destination, and to
    no other list. *)
Lemma append_both (sts : list State) (t : Transition) :
  0 ≤ from_state t < Z.of_nat (length sts) →
  0 ≤ to_state t < Z.of_nat (length sts) →
  ∃ sts1 sts2,
    append_outgoing sts (from_state t) t = Ok sts1 ∧
    append_incoming sts1 (to_state t) t = Ok sts2 ∧
    length sts2 = length sts ∧
    ∀ i st, sts !! i = Some st →
      sts2 !! i = Some (MkState (name st)
        (incoming st ++ filter (λ t', to_state t' = Z.of_nat i) [t])
        (outgoing st ++ filter (λ t', from_state t' = Z.of_nat i) [t])).
Proof.
  intros Hfrom Hto.
  destruct (lookup_valid sts _ Hfrom) as [st1 Hst1].
  eexists. rewrite (append_outgoing_valid _ _ _ st1) by (lia || done).
  set (sts1 := <[Z.to_nat (from_state t) := _]> sts).
  assert (length sts1 = length sts) as Hlen1 by apply length_insert.
  destruct (lookup_valid sts1 (to_state t)) as [st2 Hst2]; [rewrite Hlen1; lia|].
  eexists. rewrite (append_incoming_valid _ _ _ st2) by (lia || done).
  split_and!; [done|done|by rewrite length_insert|].
  intros i st Hst.
  rewrite !filter_cons, !filter_nil.
  destruct (decide (i = Z.to_nat (to_state t))) as [->|Hne2].
  - rewrite list_lookup_insert_eq by (rewrite ?length_insert; lia).
    rewrite (decide_True (P:=to_state t = _)) by lia.
    subst sts1.
    destruct (decide (Z.to_nat (to_state t) = Z.to_nat (from_state t))) as [Heq|Hne1].
    + rewrite Heq in Hst2, Hst.
      rewrite list_lookup_insert_eq in Hst2 by (rewrite ?length_insert; lia).
      injection Hst2 as <-. simpl.
      rewrite (decide_True (P:=from_state t = _)) by lia.
      congruence.
    + rewrite list_lookup_insert_ne in Hst2 by done.
      rewrite (decide_False (P:=from_state t = _)) by lia.
      rewrite app_nil_r. congruence.
  - rewrite list_lookup_insert_ne by done.
    rewrite (decide_False (P:=to_state t = _)) by lia.
    rewrite app_nil_r. subst sts1.
    destruct (decide (i = Z.to_nat (from_state t))) as [->|Hne1].
    + rewrite list_lookup_insert_eq by (rewrite ?length_insert; lia).
      rewrite (decide_True (P:=from_state t = _)) by lia.
      congruence.
    + rewrite list_lookup_insert_ne by done.
      rewrite (decide_False (P:=from_state t = _)) by lia.
      rewrite app_nil_r. by destruct st.
Qed.

Lemma from_csv_rows_resolved (names : list string) (rows : list (list string)) :
  Forall (row_resolves names) rows →
  ∀ sts ts, length sts = length names →
  ∃ sts' new,
    from_csv_rows names rows sts ts = Ok (sts', ts ++ new) ∧
    Forall2 (created names) rows new ∧
    length sts' = length sts ∧
    ∀ i st, sts !! i = Some st →
      sts' !! i = Some (MkState (name st)
        (incoming st ++ filter (λ t, to_state t = Z.of_nat i) new)
        (outgoing st ++ filter (λ t, from_state t = Z.of_nat i) new)).
Proof.
  induction 1 as [|row rows (r0 & r1 & r2 & Hr0 & Hr1 & Hr2 & Hin1 & Hin2) _ IH];
    intros sts ts Hlen.
  - exists sts, []. simpl. rewrite app_nil_r. split_and!; [done|done|done|].
    intros i st Hst. rewrite !filter_nil, !app_nil_r. by destruct st.
  - simpl.
    destruct (py_list_index_elem_of _ _ Hin1) as [i1 Hi1].
    destruct (py_list_index_elem_of _ _ Hin2) as [i2 Hi2].
    rewrite (py_getitem_valid row 1 r1) by done. simpl. rewrite Hi1. simpl.
    rewrite (py_getitem_valid row 2 r2) by done. simpl. rewrite Hi2. simpl.
    rewrite (py_getitem_valid row 0 r0) by done. simpl.
    set (t := MkTransition i1 i2 (if decide (r0 = EmptyString) then None else Some r0)).
    destruct (py_list_index_Ok _ _ _ Hi1) as [Hrange1 _].
    destruct (py_list_index_Ok _ _ _ Hi2) as [Hrange2 _].
    destruct (append_both sts t) as (sts1 & sts2 & Ho & Hi & Hlen2 & Hsts2);
      [simpl; lia|simpl; lia|].
    simpl in Ho, Hi. rewrite Ho. simpl. rewrite Hi. simpl.
    destruct (IH sts2 (ts ++ [t])) as (sts' & new & Hrun & Hcreated & Hlen' & Hsts');
      [lia|].
    exists sts', (t :: new). split_and!.
    + rewrite Hrun. by rewrite <- app_assoc.
    + constructor; [|done]. by exists r0, r1, r2.
    + lia.
    + intros i st Hst. rewrite (Hsts' i _ (Hsts2 i st Hst)). simpl.
      rewrite <- !app_assoc. change (t :: new) with ([t] ++ new).
      by rewrite !filter_app.
Qed.

Lemma from_csv_unknown_name (state_rows transition_rows : list (list string)) :
  (∃ row nm, row ∈ transition_rows ∧
             (row !! 1%nat = Some nm ∨ row !! 2%nat = Some nm) ∧
             nm ∉ table_names state_rows) →
  ∃ e, from_csv state_rows transition_rows = Raise e.
Proof.
  intros (row & nm & Hrow & Hcol & Habsent).
  destruct (from_csv state_rows transition_rows) as [m|e|] eqn:Hload; [|eauto|].
  - exfalso. unfold from_csv in Hload.
    apply rbind_Ok_inv in Hload as (sts & Hsts & Hload).
    apply rbind_Ok_inv in Hload as ([sts' ts] & Hrows & _).
    apply load_states_Ok in Hsts. subst sts.
    rewrite table_names_states in Hrows.
    apply Habsent. eapply from_csv_rows_Ok_names; eauto.
  - exfalso. unfold from_csv in Hload.
    pose proof (load_states_fuel state_rows).
    destruct (load_states state_rows) as [sts| |]; simpl in Hload; [|done|done].
    pose proof (from_csv_rows_fuel (map name sts) transition_rows sts []).
    by destruct (from_csv_rows _ _ _ _) as [[??]| |].
Qed.

Lemma from_csv_resolved (state_rows transition_rows : list (list string)) :
  (∀ row, row ∈ state_rows → row ≠ []) →
  Forall (row_resolves (table_names state_rows)) transition_rows →
  ∃ m, from_csv state_rows transition_rows = Ok m ∧
       map name (states m) = table_names state_rows ∧
       current_state m = 0 ∧ listeners m = [] ∧
       Forall2 (created (table_names state_rows)) transition_rows (transitions m) ∧
       ∀ i st, states m !! i = Some st →
         outgoing st = filter (λ t, from_state t = Z.of_nat i) (transitions m) ∧
         incoming st = filter (λ t, to_state t = Z.of_nat i) (transitions m).
Proof.
  intros Hnonempty Hresolves. unfold from_csv.
  rewrite (load_states_nonempty _ Hnonempty). simpl.
  rewrite table_names_states.
  destruct (from_csv_rows_resolved _ _ Hresolves
              (map (λ nm, MkState nm [] []) (table_names state_rows)) [])
    as (sts' & new & -> & Hcreated & Hlen & Hsts'); [by rewrite !length_map|].
  simpl. eexists. split; [done|]. simpl. split_and!; [|done|done|done|].
  - apply list_eq. intros i. rewrite list_lookup_fmap.
    destruct (table_names state_rows !! i) as [nm|] eqn:Hnm.
    + rewrite (Hsts' i (MkState nm [] [])); [done|].
      by rewrite list_lookup_fmap, Hnm.
    + rewrite lookup_ge_None_2; [done|]. rewrite Hlen, length_map.
      by apply lookup_ge_None_1.
  - intros i st Hst.
    assert (is_Some (map (λ nm, MkState nm [] []) (table_names state_rows) !! i))
      as [st0 Hst0].
    { apply lookup_lt_is_Some. rewrite <- Hlen. by eapply lookup_lt_Some. }
    rewrite (Hsts' i st0 Hst0) in Hst. injection Hst as <-. simpl.
    rewrite list_lookup_fmap in Hst0.
    destruct (table_names state_rows !! i); [|done].
    injection Hst0 as <-. done.
Qed.

(** A load of well-formed tables with at least one state gives a machine
    that satisfies the invariants of the data model. *)
Lemma from_csv_wf (state_rows transition_rows : list (list string)) :
  state_rows ≠ [] →
  (∀ row, row ∈ state_rows → row ≠ []) →
  Forall (row_resolves (table_names state_rows)) transition_rows →
  ∃ m, from_csv state_rows transition_rows = Ok m ∧ wf_machine m.
Proof.
  intros Hsome Hnonempty Hresolves.
  destruct (from_csv_resolved _ _ Hnonempty Hresolves)
    as (m & Hload & Hnames & Hcur & _ & Hcreated & Hlists).
  exists m. split; [done|].
  assert (length (states m) = length (table_names state_rows)) as Hlen.
  { by rewrite <- Hnames, length_map. }
  constructor.
  - intros t Ht. apply list_elem_of_lookup in Ht as [k Hk].
    destruct (Forall2_lookup_r _ _ _ _ _ Hcreated Hk)
      as (row & _ & r0 & r1 & r2 & _ & _ & _ & Hfrom & Hto & _).
    apply py_list_index_Ok in Hfrom as [Hfrom _].
    apply py_list_index_Ok in Hto as [Hto _].
    unfold valid_id. rewrite Hlen. done.
  - unfold valid_id. rewrite Hcur, Hlen.
    destruct state_rows as [|row rows]; [done|].
    destruct row as [|nm row]; [exfalso; eapply Hnonempty; [left|done]|].
    unfold table_names. simpl. lia.
  - intros i st t Hst. destruct (Hlists i st Hst) as [-> _].
    by rewrite list_elem_of_filter, (comm and).
  - intros i st t Hst. destruct (Hlists i st Hst) as [_ ->].
    by rewrite list_elem_of_filter, (comm and).
Qed.

Lemma fixture_wf : wf_machine fixture.
Proof.
  destruct (from_csv_wf fixture_state_rows fixture_transition_rows)
    as (m & Hm & Hwf).
  - done.
  - intros row Hrow.
    repeat (apply elem_of_cons in Hrow as [->|Hrow]; [done|]).
    by apply elem_of_nil in Hrow.
  - repeat constructor.
    + exists EmptyString, "start", "middle". split_and!; try done; vm_compute.
      * left.
      * right; left.
    + exists "press_a", "middle", "end". split_and!; try done; vm_compute.
      * right; left.
      * right; right; left.
  - rewrite fixture_loaded in Hm. by injection Hm as <-.
Qed.

Lemma created_described_by (names : list string) (row : list string) (t : Transition) :
  created names row t → described_by names row t.
Proof.
  intros (r0 & r1 & r2 & H0 & H1 & H2 & Hfrom & Hto & Hact).
  exists r0, r1, r2. split_and!; [done|done|done| | |done].
  - destruct (py_list_index_Ok _ _ _ Hfrom) as [Hrange Hlook].
    split_and!; [lia|done|]. by apply (py_list_index_first _ _ _ Hfrom).
  - destruct (py_list_index_Ok _ _ _ Hto) as [Hrange Hlook].
    split_and!; [lia|done|]. by apply (py_list_index_first _ _ _ Hto).
Qed.

(** What a load of resolvable tables builds, stated on the tables alone. *)
Lemma from_csv_described (state_rows transition_rows : list (list string)) :
  (∀ row, row ∈ state_rows → row ≠ []) →
  Forall (row_resolves (table_names state_rows)) transition_rows →
  ∃ m, from_csv state_rows transition_rows = Ok m ∧
       map name (states m) = table_names state_rows ∧
       current_state m = 0 ∧ listeners m = [] ∧
       Forall2 (described_by (table_names state_rows))
               transition_rows (transitions m) ∧
       (∀ k row t, transition_rows !! k = Some row → transitions m !! k = Some t →
          ∃ src dst,
            states m !! Z.to_nat (from_state t) = Some src ∧
            row !! 1%nat = Some (name src) ∧ t ∈ outgoing src ∧
            states m !! Z.to_nat (to_state t) = Some dst ∧
            row !! 2%nat = Some (name dst) ∧ t ∈ incoming dst) ∧
       ∀ i st, states m !! i = Some st →
         outgoing st = filter (λ t, from_state t = Z.of_nat i) (transitions m) ∧
         incoming st = filter (λ t, to_state t = Z.of_nat i) (transitions m).
Proof.
  intros Hrows Hres.
  destruct (from_csv_resolved _ _ Hrows Hres)
    as (m & Hload & Hnames & Hcur & Hls & Hcreated & Hlists).
  exists m. split_and!; [done|done|done|done| | |done].
  - eapply Forall2_impl; [exact Hcreated|]. apply created_described_by.
  - intros k row t Hrow Ht.
    destruct (Forall2_lookup_lr _ _ _ _ _ _ Hcreated Hrow Ht)
      as (r0 & r1 & r2 & H0 & H1 & H2 & Hfrom & Hto & Hact).
    destruct (py_list_index_Ok _ _ _ Hfrom) as [Hfr Hflook].
    destruct (py_list_index_Ok _ _ _ Hto) as [Htr Htlook].
    rewrite <- Hnames in Hflook, Htlook.
    rewrite list_lookup_fmap in Hflook, Htlook.
    destruct (states m !! Z.to_nat (from_state t)) as [src|] eqn:Hsrc; [|done].
    destruct (states m !! Z.to_nat (to_state t)) as [dst|] eqn:Hdst; [|done].
    injection Hflook as Hfname. injection Htlook as Htname.
    assert (t ∈ transitions m) as Hin by (by eapply list_elem_of_lookup_2).
    exists src, dst. split_and!; [done|congruence| |done|congruence|].
    + destruct (Hlists _ _ Hsrc) as [-> _].
      apply list_elem_of_filter. split; [lia|done].
    + destruct (Hlists _ _ Hdst) as [_ ->].
      apply list_elem_of_filter. split; [lia|done].
Qed.

(** C9: a transition row naming a state that the state table does not hold
    makes [from_csv] raise, so no machine results.  When every state row has
    a name and every transition row resolves, the load succeeds with the
    states named by the state table, [current_state = 0] and no listener;
    the transition sequence holds, in row order, one transition per row,
    leading from the first state named by the row's second column to the
    first state named by its third column; each such transition is in the
    outgoing list of the state carrying its source name and in the incoming
    list of the state carrying its destination name; and every state lists,
    in row order, exactly the transitions leaving it and entering it. *)
Theorem from_csv_loads (state_rows transition_rows : list (list string)) :
  ((∃ row nm, row ∈ transition_rows ∧
              (row !! 1%nat = Some nm ∨ row !! 2%nat = Some nm) ∧
              nm ∉ table_names state_rows) →
   ∃ e, from_csv state_rows transition_rows = Raise e) ∧
  ((∀ row, row ∈ state_rows → row ≠ []) →
   Forall (row_resolves (table_names state_rows)) transition_rows →
   ∃ m, from_csv state_rows transition_rows = Ok m ∧
        map name (states m) = table_names state_rows ∧
        current_state m = 0 ∧ listeners m = [] ∧
        Forall2 (described_by (table_names state_rows))
                transition_rows (transitions m) ∧
        (∀ k row t, transition_rows !! k = Some row → transitions m !! k = Some t →
           ∃ src dst,
             states m !! Z.to_nat (from_state t) = Some src ∧
             row !! 1%nat = Some (name src) ∧ t ∈ outgoing src ∧
             states m !! Z.to_nat (to_state t) = Some dst ∧
             row !! 2%nat = Some (name dst) ∧ t ∈ incoming dst) ∧
        ∀ i st, states m !! i = Some st →
          outgoing st = filter (λ t, from_state t = Z.of_nat i) (transitions m) ∧
          incoming st = filter (λ t, to_state t = Z.of_nat i) (transitions m)).
Proof.
  split; [apply from_csv_unknown_name|apply from_csv_described].
Qed.

Lemma from_csv_loads_witness :
  (∃ e, from_csv fixture_state_rows [[EmptyString; "start"; "nowhere"]] = Raise e) ∧
  (∃ m, from_csv fixture_state_rows fixture_transition_rows = Ok m ∧
        map name (states m) = table_names fixture_state_rows ∧
        current_state m = 0 ∧ listeners m = [] ∧
        Forall2 (described_by (table_names fixture_state_rows))
                fixture_transition_rows (transitions m) ∧
        (∀ k row t, fixture_transition_rows !! k = Some row →
                    transitions m !! k = Some t →
           ∃ src dst,
             states m !! Z.to_nat (from_state t) = Some src ∧
             row !! 1%nat = Some (name src) ∧ t ∈ outgoing src ∧
             states m !! Z.to_nat (to_state t) = Some dst ∧
             row !! 2%nat = Some (name dst) ∧ t ∈ incoming dst) ∧
        ∀ i st, states m !! i = Some st →
          outgoing st = filter (λ t, from_state t = Z.of_nat i) (transitions m) ∧
          incoming st = filter (λ t, to_state t = Z.of_nat i) (transitions m)).
Proof.
  split.
  - apply (from_csv_loads fixture_state_rows [[EmptyString; "start"; "nowhere"]]).
    exists [EmptyString; "start"; "nowhere"], "nowhere". split_and!; [left|by right|].
    vm_compute. intros Hin.
    repeat (apply elem_of_cons in Hin as [Hin|Hin]; [discriminate Hin|]).
    by apply elem_of_nil in Hin.
  - apply (from_csv_loads fixture_state_rows fixture_transition_rows).
    + intros row Hrow.
      repeat (apply elem_of_cons in Hrow as [->|Hrow]; [done|]).
      by apply elem_of_nil in Hrow.
    + repeat constructor.
      * exists EmptyString, "start", "middle". split_and!; try done; vm_compute.
        -- left.
        -- right; left.
      * exists "press_a", "middle", "end". split_and!; try done; vm_compute.
        -- right; left.
        -- right; right; left.
Defined.

(** ** [simulate_action] *)

Example detour_loaded :
  from_csv [["s0"]; ["s1"]; ["s2"]]
           [["a"; "s0"; "s1"]; [EmptyString; "s1"; "s0"]; [EmptyString; "s0"; "s2"]] = Ok detour.
Proof. reflexivity. Qed.

Lemma avoiding_path_weaken (edge edge' : Z → Z → Prop) (avoid avoid' : Z → Prop) u v :
  (∀ x y, ¬ avoid x → edge x y → edge' x y) →
  (∀ x, avoid' x → avoid x) →
  avoiding_path edge avoid u v → avoiding_path edge' avoid' u v.
Proof.
  intros Hedge Havoid. induction 1 as [v Hv|u v w Hu Huv _ IH].
  - apply avoiding_here. eauto.
  - eapply avoiding_step; eauto.
Qed.

Lemma unmarked_count_insert (visited : list bool) (i : nat) :
  visited !! i = Some false →
  S (unmarked_count (<[i:=true]> visited)) = unmarked_count visited.
Proof.
  unfold unmarked_count. revert i.
  induction visited as [|b visited IH]; intros i Hi; [done|].
  destruct i as [|i]; simpl in *.
  - injection Hi as ->. by rewrite !filter_cons.
  - rewrite !filter_cons. specialize (IH i Hi).
    case_decide; simpl; lia.
Qed.

Lemma unmarked_count_replicate (n : nat) :
  unmarked_count (replicate n false) = n.
Proof.
  unfold unmarked_count. induction n as [|n IH]; [done|].
  change (replicate (S n) false) with (false :: replicate n false).
  rewrite filter_cons_True by done. simpl. by rewrite IH.
Qed.

Lemma marked_insert (visited : list bool) (s v : Z) :
  0 ≤ s < Z.of_nat (length visited) → 0 ≤ v →
  marked (<[Z.to_nat s:=true]> visited) v ↔ marked visited v ∨ v = s.
Proof.
  intros Hs Hv. unfold marked.
  destruct (decide (v = s)) as [->|Hne].
  - rewrite list_lookup_insert_eq by lia. split; [by right|done].
  - rewrite list_lookup_insert_ne by lia. split; [by left|by intros [?|?]].
Qed.

Lemma marked_replicate (n : nat) (v : Z) : ¬ marked (replicate n false) v.
Proof.
  unfold marked. by intros [? _]%lookup_replicate.
Qed.

Lemma marked_mono_all (V V' : list bool) :
  (∀ v, 0 ≤ v → marked V v → marked V' v) → ∀ x, marked V x → marked V' x.
Proof.
  intros Hmono x Hx. destruct (decide (0 ≤ x)) as [Hpos|Hneg]; [by apply Hmono|].
  unfold marked in *. replace (Z.to_nat x) with (Z.to_nat 0) in * by lia.
  by apply (Hmono 0).
Qed.

Lemma discovery_order_impl sts (P Q : Z → Prop) (R : list Z) :
  (∀ v, P v → Q v) → discovery_order sts P R → discovery_order sts Q R.
Proof.
  intros HPQ Hord i v Hv. destruct (Hord i v Hv) as [HP|Hprev]; [left; eauto|by right].
Qed.

Section traversal.
Variable sts : list State.
Hypothesis Htargets : targets_valid sts.

Lemma out_edge_target act u v :
  out_edge sts act u v → 0 ≤ v < Z.of_nat (length sts).
Proof.
  intros (st & t & _ & Hst & Ht & _ & <-). by eapply Htargets.
Qed.

Lemma out_step_target u v :
  out_step sts u v → 0 ≤ v < Z.of_nat (length sts).
Proof.
  intros (st & t & _ & Hst & Ht & <-). by eapply Htargets.
Qed.

(** The loop of [__perform_action], given that the recursive calls behave. *)
Lemma perform_action_loop_explored
    (rec : Z → list bool → result (list Z * list bool))
    (act : option string) (bound : nat) :
  (∀ s V, length V = length sts → 0 ≤ s < Z.of_nat (length sts) →
          V !! Z.to_nat s = Some false → (unmarked_count V ≤ bound)%nat →
          ∃ R V', rec s V = Ok (R, V') ∧ explored sts None s V R V') →
  ∀ ts acc V,
    length V = length sts →
    (∀ t, t ∈ ts → 0 ≤ to_state t < Z.of_nat (length sts)) →
    (unmarked_count V ≤ bound)%nat →
    ∃ R V', perform_action_loop rec act ts acc V = Ok (acc ++ R, V') ∧
            loop_explored sts act ts V R V'.
Proof.
  intros Hrec. induction ts as [|t ts IH]; intros acc V Hlen Hts Hcount.
  { exists [], V. simpl. rewrite app_nil_r. split; [done|].
    constructor; try done.
    - intros v _. split; [by left|]. intros [?|Hin]; [done|].
      by apply elem_of_nil in Hin.
    - constructor.
    - intros v Hin. by apply elem_of_nil in Hin.
    - intros v Hin. by apply elem_of_nil in Hin.
    - intros x y Hin. by apply elem_of_nil in Hin.
    - intros t Hin. by apply elem_of_nil in Hin. }
  assert (∀ t', t' ∈ ts → 0 ≤ to_state t' < Z.of_nat (length sts)) as Hts'.
  { intros t' Ht'. apply Hts. by right. }
  assert (0 ≤ to_state t < Z.of_nat (length sts)) as Ht by (apply Hts; left).
  (* the cases where the transition is skipped *)
  assert ((action t = act → marked V (to_state t)) →
          ∃ R V', perform_action_loop rec act ts acc V = Ok (acc ++ R, V') ∧
                  loop_explored sts act (t :: ts) V R V') as Hskip.
  { intros Hseen.
    destruct (IH acc V Hlen Hts' Hcount) as (R & V' & Hrun & L).
    exists R, V'. split; [done|]. destruct L. constructor; try done.
    - intros v Hv. destruct (loop_sound0 v Hv) as (t' & Ht' & Hact & Hpath).
      exists t'. split; [by right|done].
    - intros t' [->|Ht']%elem_of_cons Hact; [|by eauto].
      apply loop_marked0; [lia|]. left. by apply Hseen.
    - eapply discovery_order_impl; [|done].
      intros v (t' & Ht' & Hact & Hto). exists t'. split; [by right|done]. }
  simpl. case_decide as Hact; [|by apply Hskip].
  destruct (lookup_valid V (to_state t)) as [seen Hseen]; [lia|].
  rewrite (py_getitem_valid _ _ seen) by (lia || done). simpl.
  destruct seen; simpl; [by apply Hskip|].
  (* a new target: recurse, then go on *)
  destruct (Hrec (to_state t) V Hlen Ht Hseen Hcount) as (sub & V1 & -> & E).
  simpl. destruct E.
  destruct (IH (acc ++ to_state t :: sub) V1) as (R & V' & Hrun & L);
    [congruence|done|lia|].
  destruct L.
  assert (∀ x, marked V x → marked V1 x) as Hmono1.
  { apply marked_mono_all. intros v Hv Hm. apply explored_marked0; [done|by left]. }
  exists (to_state t :: sub ++ R), V'. split.
  { rewrite Hrun. f_equal. f_equal. rewrite <- app_assoc. done. }
  constructor.
  - congruence.
  - lia.
  - intros v Hv. rewrite loop_marked0, explored_marked0 by done.
    rewrite elem_of_cons, elem_of_app. tauto.
  - apply NoDup_cons. split.
    + rewrite elem_of_app. intros [Hin|Hin].
      * by apply explored_fresh0 in Hin as (_ & _ & ?).
      * apply loop_fresh0 in Hin as [_ Hin]. apply Hin.
        apply explored_marked0; [lia|]. right; by left.
    + apply NoDup_app. split_and!; [done| |done].
      intros v Hsub HR. apply loop_fresh0 in HR as [Hv HR]. apply HR.
      apply explored_marked0; [lia|]. right; by right.
  - intros v [->|[Hin|Hin]%elem_of_app]%elem_of_cons.
    + split; [done|]. unfold marked. by rewrite Hseen.
    + by apply explored_fresh0 in Hin as (? & ? & _).
    + apply loop_fresh0 in Hin as [? Hin]. split; [done|]. eauto.
  - intros v [->|[Hin|Hin]%elem_of_app]%elem_of_cons.
    + exists t. split_and!; [left|done|].
      apply avoiding_here. unfold marked. by rewrite Hseen.
    + destruct (explored_sound0 v Hin) as (w & Hw & Hpath).
      exists t. split_and!; [left|done|].
      eapply avoiding_step; [unfold marked; by rewrite Hseen|exact Hw|].
      eapply avoiding_path_weaken; [| |exact Hpath]; [done|]. by left.
    + destruct (loop_sound0 v Hin) as (t' & Ht' & Hact' & Hpath).
      exists t'. split_and!; [by right|done|].
      eapply avoiding_path_weaken; [| |exact Hpath]; [done|]. done.
  - intros x y [->|[Hin|Hin]%elem_of_app]%elem_of_cons Hxy.
    + apply loop_marked0; [by eapply out_edge_target|]. left. by apply explored_root0.
    + apply loop_marked0; [by eapply out_edge_target|]. left. by eapply explored_closed0.
    + by eapply loop_closed0.
  - intros t' [->|Ht']%elem_of_cons Hact'; [|by eauto].
    apply loop_marked0; [lia|]. left. apply explored_marked0; [lia|]. right; by left.
  - intros i v Hiv. destruct i as [|i].
    { injection Hiv as <-. left. exists t. split; [left|done]. }
    simpl in Hiv. apply lookup_app_Some in Hiv as [Hiv|[Hge Hiv]].
    + destruct (explored_order0 i v Hiv) as [Himm|(j & x & Hj & Hx & Hxv)].
      * right. exists 0%nat, (to_state t). split_and!; [lia|done|done].
      * right. exists (S j), x. split_and!; [lia| |done].
        simpl. by apply lookup_app_l_Some.
    + destruct (loop_order0 _ v Hiv) as [(t' & Ht' & Hact' & Hto)|(j & x & Hj & Hx & Hxv)].
      * left. exists t'. split; [by right|done].
      * right. exists (S (length sub + j)), x. split_and!; [lia| |done].
        simpl. rewrite lookup_app_r by lia.
        by replace (length sub + j - length sub)%nat with j by lia.
Qed.
End traversal.

Section perform_action_correct.
Variable sts : list State.
Hypothesis Htargets : targets_valid sts.

(** One call on an unvisited state, with fuel for every unvisited state. *)
Lemma perform_action_explored (fuel : nat) :
  ∀ act s V,
    length V = length sts → 0 ≤ s < Z.of_nat (length sts) →
    V !! Z.to_nat s = Some false → (unmarked_count V ≤ fuel)%nat →
    ∃ R V', perform_action fuel sts act s V = Ok (R, V') ∧
            explored sts act s V R V'.
Proof.
  induction fuel as [|fuel IH]; intros act s V Hlen Hs Hfresh Hcount.
  { exfalso. pose proof (unmarked_count_insert _ _ Hfresh). lia. }
  simpl. rewrite py_setitem_valid by lia. simpl.
  destruct (lookup_valid sts s Hs) as [st Hst].
  rewrite (py_getitem_valid _ _ st) by (lia || done). simpl.
  set (V1 := <[Z.to_nat s:=true]> V).
  pose proof (unmarked_count_insert _ _ Hfresh) as Hcount1. fold V1 in Hcount1.
  assert (length V1 = length sts) as Hlen1 by (unfold V1; by rewrite length_insert).
  destruct (perform_action_loop_explored sts Htargets
              (perform_action fuel sts None) act fuel (IH None)
              (outgoing st) [] V1)
    as (R & V' & Hrun & L); [done| |lia|].
  { intros t Ht. by eapply Htargets. }
  simpl in Hrun. exists R, V'. split; [done|]. destruct L.
  assert (∀ v, 0 ≤ v → marked V1 v ↔ marked V v ∨ v = s) as Hmark1.
  { intros v Hv. apply marked_insert; [lia|done]. }
  constructor.
  - congruence.
  - lia.
  - intros v Hv. rewrite loop_marked0, Hmark1 by done. tauto.
  - done.
  - intros v Hin. destruct (loop_fresh0 v Hin) as [Hv Hnot].
    split; [done|]. rewrite Hmark1 in Hnot by lia. tauto.
  - intros v Hin. destruct (loop_sound0 v Hin) as (t & Ht & Hact & Hpath).
    exists (to_state t). split.
    + exists st, t. split_and!; [lia|done|done|done|done].
    + eapply avoiding_path_weaken; [| |exact Hpath]; [done|].
      intros x [Hx| ->].
      * revert x Hx. apply marked_mono_all. intros v' Hv' Hm.
        apply Hmark1; [done|by left].
      * apply Hmark1; [lia|by right].
  - done.
  - intros w (st' & t & _ & Hst' & Ht & Hact & <-).
    assert (st' = st) as -> by congruence. by apply loop_targets0.
  - eapply discovery_order_impl; [|done].
    intros v (t & Ht & Hact & <-). exists st, t.
    split_and!; [lia|done|done|done|done].
Qed.
End perform_action_correct.

Lemma wf_targets_valid (m : FiniteStateMachine) :
  wf_machine m → targets_valid (states m).
Proof.
  intros Hwf i st t Hst Ht.
  apply (wf_outgoing m Hwf i st t Hst) in Ht as [Ht _].
  by apply (wf_endpoints m Hwf) in Ht as [_ ?].
Qed.

Lemma out_edge_labelled (m : FiniteStateMachine) act u v :
  wf_machine m → out_edge (states m) act u v → labelled_edge m act u v.
Proof.
  intros Hwf (st & t & Hu & Hst & Ht & Hact & Hto).
  apply (wf_outgoing m Hwf _ st t Hst) in Ht as [Ht Hfrom].
  exists t. split_and!; [done| |done]. split; [lia|done].
Qed.

Lemma labelled_out_edge (m : FiniteStateMachine) act u v :
  wf_machine m → labelled_edge m act u v → out_edge (states m) act u v.
Proof.
  intros Hwf (t & Ht & [Hfrom Hto] & Hact).
  destruct (wf_endpoints m Hwf t Ht) as [Hvalid _]. rewrite Hfrom in Hvalid.
  destruct (lookup_valid _ _ Hvalid) as [st Hst].
  exists st, t. split_and!; [apply Hvalid|done| |done|done].
  apply (wf_outgoing m Hwf _ st t Hst). split; [done|]. unfold valid_id in Hvalid. lia.
Qed.

(** What the code computes: on a machine satisfying the data-model
    invariants, [simulate_action act] returns, without duplicates and without
    [current_state], exactly the immediate targets of the transitions labelled
    [act] out of [current_state] together with the states reachable from such
    a target by epsilon transitions along a chain that never passes through
    [current_state]; each listed state that is not an immediate target comes
    after a listed state with an epsilon transition to it; the result is
    empty when no transition labelled [act] leaves [current_state]. *)
Theorem simulate_action_closure (w : World) (act : option string) :
  wf_machine (machine w) →
  ∃ R, simulate_action act w = (Ok R, w) ∧
    NoDup R ∧
    (current_state (machine w) ∉ R) ∧
    (∀ v, v ∈ R ↔
       ∃ u, labelled_edge (machine w) act (current_state (machine w)) u ∧
            epsilon_closure_avoiding (machine w) (current_state (machine w)) u v) ∧
    listed_after_discoverer (machine w) act (current_state (machine w)) R ∧
    ((∀ u, ¬ labelled_edge (machine w) act (current_state (machine w)) u) → R = []).
Proof.
  intros Hwf. destruct w as [m cs]. simpl in *.
  pose proof (wf_targets_valid m Hwf) as Htargets.
  pose proof (wf_current m Hwf) as Hroot. unfold valid_id in Hroot.
  set (root := current_state m) in *.
  set (V0 := replicate (length (states m)) false).
  destruct (perform_action_explored (states m) Htargets (S (length (states m)))
              act root V0) as (R & V' & Hrun & E).
  { unfold V0. by rewrite length_replicate. }
  { done. }
  { unfold V0. apply lookup_replicate. split; [done|lia]. }
  { unfold V0. rewrite unmarked_count_replicate. lia. }
  exists R. split.
  { unfold simulate_action. rewrite (M_bind_Ok _ _ _ m (MkWorld m cs)) by done.
    unfold lift. unfold root, V0 in Hrun. by rewrite Hrun. }
  destruct E.
  assert (∀ v, v ∈ R → ∃ u, labelled_edge m act root u ∧
                            epsilon_closure_avoiding m root u v) as Hsound.
  { intros v Hv. destruct (explored_sound0 v Hv) as (u & Hu & Hpath).
    exists u. split; [by apply out_edge_labelled|].
    eapply avoiding_path_weaken; [| |exact Hpath].
    - intros x y _. by apply out_edge_labelled.
    - intros x ->. by right. }
  assert (∀ u v, epsilon_closure_avoiding m root u v →
                 0 ≤ u → marked V' u → v ∈ R) as Hcomplete.
  { induction 1 as [v Hv|u v' v Hu Huv Hpath IH]; intros Hpos Hm.
    - apply (proj1 (explored_marked0 v Hpos)) in Hm as [Hm|[Hm|Hm]]; [|done|done].
      by apply marked_replicate in Hm.
    - apply (proj1 (explored_marked0 u Hpos)) in Hm as [Hm|[Hm|Hm]]; [|done|].
      { by apply marked_replicate in Hm. }
      apply labelled_out_edge in Huv; [|done].
      apply IH.
      + by apply out_edge_target in Huv as [? _].
      + by eapply explored_closed0. }
  split_and!.
  - done.
  - intros Hin. by apply explored_fresh0 in Hin as (_ & _ & ?).
  - intros v. split; [apply Hsound|].
    intros (u & Hu & Hpath). apply labelled_out_edge in Hu; [|done].
    apply (Hcomplete u v Hpath).
    + by apply out_edge_target in Hu as [? _].
    + by apply explored_root0.
  - intros i v Hv. destruct (explored_order0 i v Hv) as [Himm|(j & x & Hj & Hx & Hxv)].
    + left. by apply out_edge_labelled.
    + right. exists j, x. split_and!; [done|done|]. by apply out_edge_labelled.
  - intros Hnone. destruct R as [|v R]; [done|]. exfalso.
    destruct (Hsound v) as (u & Hu & _); [left|]. by eapply Hnone.
Qed.

Lemma simulate_action_closure_witness :
  ∃ R, simulate_action (Some "press_a") (fresh (with_current fixture 1))
       = (Ok R, fresh (with_current fixture 1)) ∧
    NoDup R ∧
    (1 ∉ R) ∧
    (∀ v, v ∈ R ↔
       ∃ u, labelled_edge (with_current fixture 1) (Some "press_a") 1 u ∧
            epsilon_closure_avoiding (with_current fixture 1) 1 u v) ∧
    listed_after_discoverer (with_current fixture 1) (Some "press_a") 1 R ∧
    ((∀ u, ¬ labelled_edge (with_current fixture 1) (Some "press_a") 1 u) → R = []).
Proof.
  apply (simulate_action_closure (fresh (with_current fixture 1)) (Some "press_a")).
  destruct fixture_wf as [He Hc Ho Hi].
  constructor; [exact He| |exact Ho|exact Hi].
  unfold valid_id. simpl. lia.
Defined.

(** C5: the machine [detour], loaded from the rows [s0 -a-> s1],
    [s1 -> s0], [s0 -> s2] and standing in [current_state = 0].  Performing
    [a] leads to state [1], and from there the epsilon transitions lead on
    through [0] to state [2]: state [2] is in the epsilon closure of the
    immediate target [1] and is not the root, so it can result from the
    action.  [simulate_action] returns [[1]] and misses it, because the
    chain to [2] passes through the root, which the visited list holds from
    the start.  So the result is not the set the claim describes. *)
Lemma simulate_action_misses_closure :
  from_csv [["s0"]; ["s1"]; ["s2"]]
           [["a"; "s0"; "s1"]; [EmptyString; "s1"; "s0"]; [EmptyString; "s0"; "s2"]]
    = Ok detour ∧
  ∃ R, simulate_action (Some "a") (fresh detour) = (Ok R, fresh detour) ∧
       R = [1] ∧
       labelled_edge detour (Some "a") (current_state detour) 1 ∧
       epsilon_closure detour 1 2 ∧
       2 ≠ current_state detour ∧
       (2 ∉ R) ∧
       ¬ (∀ v, v ∈ R ↔
            v ≠ current_state detour ∧
            ∃ u, labelled_edge detour (Some "a") (current_state detour) u ∧
                 epsilon_closure detour u v).
Proof.
  assert (labelled_edge detour (Some "a") (current_state detour) 1) as Hedge.
  { exists (MkTransition 0 1 (Some "a")). split_and!; [left|done|done]. }
  assert (epsilon_closure detour 1 2) as Hclosure.
  { eapply (avoiding_step _ _ 1 0 2); [tauto| |].
    - exists (MkTransition 1 0 None). split_and!; [right; left|done|done].
    - eapply (avoiding_step _ _ 0 2 2); [tauto| |].
      + exists (MkTransition 0 2 None). split_and!; [right; right; left|done|done].
      + apply avoiding_here. tauto. }
  assert (2 ∉ [1]) as Hnotin.
  { intros Hin. apply elem_of_cons in Hin as [Hin|Hin]; [discriminate Hin|].
    by apply elem_of_nil in Hin. }
  split; [reflexivity|].
  exists [1]. split_and!; [reflexivity|done|done|done|done|done|].
  intros Hclaim. apply Hnotin, Hclaim. split; [done|]. by exists 1.
Qed.

(** ** [bfs] *)

Lemma chain_snoc (edge : Z → Z → Prop) (p : list Z) (u v : Z) :
  chain edge p → last p = Some u → edge u v → chain edge (p ++ [v]).
Proof.
  induction p as [|x p IH]; intros Hchain Hlast Huv; [done|].
  destruct p as [|y p].
  - simpl in *. injection Hlast as ->. done.
  - destruct Hchain as [Hxy Hchain]. split; [done|]. by apply IH.
Qed.

Lemma chain_snoc_inv (edge : Z → Z → Prop) (p : list Z) (u v : Z) :
  chain edge (p ++ [v]) → last p = Some u → chain edge p ∧ edge u v.
Proof.
  induction p as [|x p IH]; intros Hchain Hlast; [done|].
  destruct p as [|y p].
  - simpl in *. injection Hlast as ->. by destruct Hchain.
  - destruct Hchain as [Hxy Hchain].
    destruct (IH Hchain Hlast) as [Hp Huv]. by split.
Qed.

Lemma chain_impl (edge edge' : Z → Z → Prop) (p : list Z) :
  (∀ u v, edge u v → edge' u v) → chain edge p → chain edge' p.
Proof.
  intros Himpl. induction p as [|x p IH]; [done|].
  destruct p as [|y p]; [done|]. intros [Hxy Hchain]. split; eauto.
Qed.

Lemma marked_insert_mono (visited : list bool) (i : nat) (x : Z) :
  marked visited x → marked (<[i:=true]> visited) x.
Proof.
  unfold marked. intros Hx.
  destruct (decide (i = Z.to_nat x)) as [->|Hne].
  - rewrite list_lookup_insert_eq; [done|]. by eapply lookup_lt_Some.
  - by rewrite list_lookup_insert_ne.
Qed.

Lemma bfs_inv_initial (sts : list State) (start : Z) :
  0 ≤ start < Z.of_nat (length sts) →
  bfs_inv sts start (λ _, 0%nat) [start]
    (<[Z.to_nat start:=true]> (replicate (length sts) false))
    (replicate (length sts) None).
Proof.
  intros Hstart.
  assert (∀ v, 0 ≤ v →
    marked (<[Z.to_nat start:=true]> (replicate (length sts) false)) v → v = start)
    as Honly.
  { intros v Hv Hm. apply marked_insert in Hm as [Hm|Hm]; [|done| |done].
    - by apply marked_replicate in Hm.
    - by rewrite length_replicate. }
  constructor.
  - by rewrite length_insert, length_replicate.
  - by rewrite length_replicate.
  - done.
  - split_and!; [|by (apply lookup_replicate; split; [|lia])|done].
    apply marked_insert; [by rewrite length_replicate|lia|by right].
  - intros v ->%list_elem_of_singleton. split; [done|].
    apply marked_insert; [by rewrite length_replicate|lia|by right].
  - intros v Hv Hm Hne. exfalso. apply Hne, Honly; [lia|done].
  - intros v Hv _. apply lookup_replicate. split; [done|lia].
  - intros i j u w Hij Hu Hw. lia.
  - intros u w Hu Hm Hnot. exfalso. apply Hnot.
    apply list_elem_of_singleton, Honly; [lia|done].
  - intros u w Hu Hm Hnot. exfalso. apply Hnot.
    apply list_elem_of_singleton, Honly; [lia|done].
  - intros v Hv Hm.
    pose proof (unmarked_count_insert (replicate (length sts) false) (Z.to_nat start))
      as Hcount.
    rewrite unmarked_count_replicate in Hcount.
    specialize (Hcount ltac:(apply lookup_replicate; split; [done|lia])). lia.
Qed.

Lemma set_depth_other (d : Z → nat) (v x : Z) (k : nat) :
  x ≠ v → set_depth d v k x = d x.
Proof. intros Hne. unfold set_depth. by rewrite decide_False. Qed.

Lemma set_depth_same (d : Z → nat) (v : Z) (k : nat) :
  set_depth d v k v = k.
Proof. unfold set_depth. by rewrite decide_True. Qed.

(** Discovering the unvisited neighbour [next] of the state [c] at the head
    of the queue keeps the invariant. *)
Lemma bfs_inv_discover sts start d c q V P next :
  bfs_inv sts start d (c :: q) V P →
  0 ≤ next < Z.of_nat (length sts) →
  V !! Z.to_nat next = Some false →
  out_step sts c next →
  bfs_inv sts start (set_depth d next (S (d c))) (c :: q ++ [next])
    (<[Z.to_nat next:=true]> V) (<[Z.to_nat next:=Some c]> P).
Proof.
  intros I Hnext Hfresh Hstep. destruct I.
  destruct (inv_queue0 c) as [Hc Hcm]; [left|].
  assert (∀ x, marked V x → x ≠ next) as Hne.
  { intros x Hx ->. unfold marked in Hx. congruence. }
  assert (∀ x, 0 ≤ x → x ≠ next → Z.to_nat next ≠ Z.to_nat x) as Hidx by lia.
  assert (∀ v, 0 ≤ v → marked (<[Z.to_nat next:=true]> V) v ↔ marked V v ∨ v = next)
    as Hmark.
  { intros v Hv. apply marked_insert; [lia|done]. }
  pose proof (unmarked_count_insert V _ Hfresh) as Hcount.
  destruct inv_start0 as (Hsm & Hsp & Hsd).
  constructor.
  - by rewrite length_insert.
  - by rewrite length_insert.
  - done.
  - split_and!.
    + by apply marked_insert_mono.
    + rewrite list_lookup_insert_ne; [done|]. apply Hidx; [lia|by apply Hne].
    + rewrite set_depth_other; [done|by apply Hne].
  - intros v [->|[Hv| ->%list_elem_of_singleton]%elem_of_app]%elem_of_cons.
    + split; [done|]. by apply marked_insert_mono.
    + destruct (inv_queue0 v) as [? ?]; [by right|].
      split; [done|]. by apply marked_insert_mono.
    + split; [done|]. apply Hmark; [lia|by right].
  - intros v Hv Hm Hvs. apply Hmark in Hm as [Hm| ->]; [| |lia].
    + destruct (inv_prev0 v Hv Hm Hvs) as (u & Hu & Huv & Hum & Hedge & Hd).
      exists u. refine (conj _ (conj Huv (conj _ (conj Hedge _)))).
      * rewrite list_lookup_insert_ne; [done|]. apply Hidx; [lia|by apply Hne].
      * by apply marked_insert_mono.
      * rewrite !set_depth_other by (by apply Hne). done.
    + exists c. refine (conj _ (conj Hc (conj _ (conj Hstep _)))).
      * rewrite list_lookup_insert_eq; [done|lia].
      * by apply marked_insert_mono.
      * rewrite set_depth_same, set_depth_other by (by apply Hne). done.
  - intros v Hv Hm.
    assert (¬ marked V v ∧ v ≠ next) as [Hm' Hvn].
    { split; intros ?; apply Hm, Hmark; [lia|by left|lia|by right]. }
    rewrite list_lookup_insert_ne by (apply Hidx; [lia|done]). by apply inv_unseen0.
  - assert (∀ i u, (c :: q) !! i = Some u →
                   set_depth d next (S (d c)) u = d u ∧ (d c ≤ d u ≤ S (d c))%nat)
      as Hold.
    { intros i u Hu. split.
      - apply set_depth_other, Hne. apply inv_queue0. by eapply list_elem_of_lookup_2.
      - apply (inv_sorted0 0%nat i c u); [lia|done|done]. }
    intros i j u w Hij Hu Hw.
    change (c :: q ++ [next]) with ((c :: q) ++ [next]) in Hu, Hw.
    apply lookup_app_Some in Hu as [Hu|[Hgei Hu]];
      apply lookup_app_Some in Hw as [Hw|[Hgej Hw]].
    + destruct (Hold i u Hu) as [-> _]. destruct (Hold j w Hw) as [-> _].
      by eapply inv_sorted0.
    + destruct (Hold i u Hu) as [-> Hrange].
      apply list_lookup_singleton_Some in Hw as [_ <-].
      rewrite set_depth_same. lia.
    + apply lookup_lt_Some in Hw. lia.
    + apply list_lookup_singleton_Some in Hu as [_ <-].
      apply list_lookup_singleton_Some in Hw as [_ <-]. lia.
  - intros u w Hu Hm Hnot Huw.
    assert ((u ∉ c :: q) ∧ u ≠ next) as [Hnot' Hun].
    { split.
      - intros Hin. apply Hnot. change (c :: q ++ [next]) with ((c :: q) ++ [next]).
        apply elem_of_app. by left.
      - intros ->. apply Hnot. right. apply elem_of_app. right. left. }
    apply Hmark in Hm as [Hm|?]; [|done|lia].
    destruct (inv_done0 u w Hu Hm Hnot' Huw) as [Hwm Hd].
    split; [by apply marked_insert_mono|].
    rewrite !set_depth_other by (done || by apply Hne). done.
  - intros u w Hu Hm Hnot Hw.
    assert ((u ∉ c :: q) ∧ u ≠ next) as [Hnot' Hun].
    { split.
      - intros Hin. apply Hnot. change (c :: q ++ [next]) with ((c :: q) ++ [next]).
        apply elem_of_app. by left.
      - intros ->. apply Hnot. right. apply elem_of_app. right. left. }
    apply Hmark in Hm as [Hm|?]; [|done|lia].
    rewrite (set_depth_other _ _ u) by done.
    change (c :: q ++ [next]) with ((c :: q) ++ [next]) in Hw.
    apply elem_of_app in Hw as [Hw| ->%list_elem_of_singleton].
    + rewrite set_depth_other by (apply Hne; by apply inv_queue0).
      by apply inv_done_le0.
    + rewrite set_depth_same.
      pose proof (inv_done_le0 u c Hu Hm Hnot' ltac:(left)). lia.
  - intros v Hv Hm. apply Hmark in Hm as [Hm| ->]; [| |lia].
    + rewrite set_depth_other by (by apply Hne).
      pose proof (inv_depth0 v Hv Hm). lia.
    + rewrite set_depth_same. pose proof (inv_depth0 c Hc Hcm). lia.
Qed.

(** The [for] loop of [bfs] over the neighbours of [c]: it keeps the
    invariant, sees or discovers every neighbour, and enqueues exactly the
    states it marks. *)
Lemma bfs_visit_inv sts start c :
  ∀ neighbors d q V P,
    bfs_inv sts start d (c :: q) V P →
    (∀ w, w ∈ neighbors → out_step sts c w ∧ 0 ≤ w < Z.of_nat (length sts)) →
    ∃ d' q' V' P',
      bfs_visit neighbors c q V P = Ok (q', V', P') ∧
      bfs_inv sts start d' (c :: q') V' P' ∧
      (length q' + unmarked_count V' = length q + unmarked_count V)%nat ∧
      d' c = d c ∧
      (∀ w, marked V w → marked V' w ∧ d' w = d w) ∧
      (∀ w, w ∈ neighbors → marked V' w ∧ (d' w ≤ S (d' c))%nat).
Proof.
  induction neighbors as [|next neighbors IH]; intros d q V P I Hnb.
  { exists d, q, V, P. split_and!; try done.
    intros w Hw. by apply elem_of_nil in Hw. }
  destruct (Hnb next) as [Hstep Hnext]; [left|].
  assert (∀ w, w ∈ neighbors → out_step sts c w ∧ 0 ≤ w < Z.of_nat (length sts))
    as Hnb' by (intros w Hw; apply Hnb; by right).
  pose proof (inv_len_visited _ _ _ _ _ _ I) as HlenV.
  pose proof (inv_len_prev _ _ _ _ _ _ I) as HlenP.
  destruct (inv_queue _ _ _ _ _ _ I c) as [Hc Hcm]; [left|].
  destruct (lookup_valid V next) as [seen Hseen]; [lia|].
  simpl. rewrite (py_getitem_valid _ _ seen) by (lia || done). simpl.
  destruct seen; simpl.
  - (* already visited *)
    destruct (IH d q V P I Hnb') as (d' & q' & V' & P' & Hrun & I' & Hsize & Hdc & Hkeep & Hseen').
    exists d', q', V', P'. split_and!; try done.
    intros w [->|Hw]%elem_of_cons; [|by apply Hseen'].
    destruct (Hkeep next Hseen) as [Hm ->]. split; [done|]. rewrite Hdc.
    destruct (decide (next ∈ c :: q)) as [Hin|Hout].
    + apply list_elem_of_lookup in Hin as [j Hj].
      apply (inv_sorted _ _ _ _ _ _ I 0%nat j c next); [lia|done|done].
    + pose proof (inv_done_le _ _ _ _ _ _ I next c Hnext Hseen Hout ltac:(left)). lia.
  - (* discovered now *)
    rewrite !py_setitem_valid by lia. simpl.
    pose proof (bfs_inv_discover _ _ _ _ _ _ _ _ I Hnext Hseen Hstep) as I1.
    destruct (IH _ _ _ _ I1 Hnb')
      as (d' & q' & V' & P' & Hrun & I' & Hsize & Hdc & Hkeep & Hseen').
    assert (c ≠ next) as Hcn.
    { intros ->. unfold marked in Hcm. congruence. }
    exists d', q', V', P'. split_and!.
    + done.
    + done.
    + rewrite Hsize, length_app. simpl.
      pose proof (unmarked_count_insert V _ Hseen). lia.
    + rewrite Hdc. by apply set_depth_other.
    + intros w Hw. destruct (Hkeep w) as [Hm ->]; [by apply marked_insert_mono|].
      split; [done|]. apply set_depth_other. intros ->. unfold marked in Hw. congruence.
    + intros w [->|Hw]%elem_of_cons; [|by apply Hseen'].
      destruct (Hkeep next) as [Hm ->].
      { apply marked_insert; [lia|lia|by right]. }
      split; [done|]. rewrite Hdc, set_depth_same, set_depth_other by done. lia.
Qed.

(** Once all its neighbours are seen, the head of the queue leaves it. *)
Lemma bfs_inv_pop sts start d c q V P :
  bfs_inv sts start d (c :: q) V P →
  (∀ w, out_step sts c w → marked V w ∧ (d w ≤ S (d c))%nat) →
  bfs_inv sts start d q V P.
Proof.
  intros I Hc. destruct I. constructor; try done.
  - intros v Hv. apply inv_queue0. by right.
  - intros i j u w Hij Hu Hw. apply (inv_sorted0 (S i) (S j)); [lia|done|done].
  - intros u w Hu Hm Hnot Huw.
    destruct (decide (u = c)) as [->|Hne]; [by apply Hc|].
    apply (inv_done0 u w); [done|done| |done].
    intros [?|?]%elem_of_cons; done.
  - intros u w Hu Hm Hnot Hw.
    destruct (decide (u = c)) as [->|Hne].
    + apply list_elem_of_lookup in Hw as [j Hj].
      apply (inv_sorted0 0%nat (S j) c w); [lia|done|done].
    + apply (inv_done_le0 u w); [done|done| |by right].
      intros [?|?]%elem_of_cons; done.
Qed.

(** The [while] loop of [bfs] ends within the fuel it is given, with the
    invariant and an empty queue. *)
Lemma bfs_search_inv sts start :
  targets_valid sts →
  ∀ fuel d q V P,
    bfs_inv sts start d q V P →
    (length q + unmarked_count V < fuel)%nat →
    ∃ d' V' P', bfs_search fuel sts q V P = Ok (V', P') ∧
                bfs_inv sts start d' [] V' P'.
Proof.
  intros Htargets. induction fuel as [|fuel IH]; intros d q V P I Hfuel; [lia|].
  destruct q as [|c q]; [by exists d, V, P|].
  destruct (inv_queue _ _ _ _ _ _ I c) as [Hc Hcm]; [left|].
  destruct (lookup_valid sts c Hc) as [st Hst].
  simpl. rewrite (py_getitem_valid _ _ st) by (lia || done). simpl.
  destruct (bfs_visit_inv sts start c (map to_state (outgoing st)) d q V P I)
    as (d1 & q1 & V1 & P1 & -> & I1 & Hsize & Hdc & Hkeep & Hseen).
  { intros w (t & -> & Ht)%list_elem_of_fmap. split.
    - exists st, t. split_and!; [lia|done|done|done].
    - by eapply Htargets. }
  simpl. apply (IH d1).
  - apply (bfs_inv_pop _ _ _ c); [done|].
    intros w (st' & t & _ & Hst' & Ht & <-).
    assert (st' = st) as -> by congruence.
    apply Hseen. apply list_elem_of_fmap. by exists t.
  - simpl in Hfuel. lia.
Qed.

Lemma bfs_walk_None (fuel : nat) (prev : list (option Z)) (path : list Z) :
  bfs_walk fuel prev None path = Ok path.
Proof. by destruct fuel. Qed.

Section bfs_result.
Variables (sts : list State) (start : Z) (d : Z → nat).
Variables (V : list bool) (P : list (option Z)).
Hypothesis Htargets : targets_valid sts.
Hypothesis I : bfs_inv sts start d [] V P.

(** Walking [prev] back from a visited state yields, reversed, a path from
    [start] whose length is the depth of the state plus one. *)
Lemma bfs_walk_tree (k : nat) :
  ∀ v acc fuel,
    d v = k → 0 ≤ v < Z.of_nat (length sts) → marked V v → (k < fuel)%nat →
    ∃ p, bfs_walk fuel P (Some v) acc = Ok (acc ++ reverse p) ∧
         path_between (out_step sts) start v p ∧ length p = S k.
Proof.
  destruct I. destruct inv_start0 as (Hsm & Hsp & Hsd).
  induction k as [|k IH]; intros v acc fuel Hd Hv Hm Hfuel;
    (destruct fuel as [|fuel]; [lia|]); simpl.
  - destruct (decide (v = start)) as [->|Hne].
    + rewrite (py_getitem_valid _ _ None) by (lia || done). simpl.
      rewrite bfs_walk_None. by exists [start].
    + destruct (inv_prev0 v Hv Hm Hne) as (u & _ & _ & _ & _ & Hdu). lia.
  - destruct (decide (v = start)) as [->|Hne]; [lia|].
    destruct (inv_prev0 v Hv Hm Hne) as (u & Hpu & Hu & Hum & Huv & Hdu).
    rewrite (py_getitem_valid _ _ (Some u)) by (lia || done). simpl.
    destruct (IH u (acc ++ [v]) fuel) as (p & -> & (Hhead & Hlast & Hchain) & Hlen);
      [lia|done|done|lia|].
    exists (p ++ [v]). split_and!.
    + by rewrite reverse_snoc, <- app_assoc.
    + split_and!.
      * destruct p; [done|]. done.
      * apply last_snoc.
      * by eapply chain_snoc.
    + rewrite length_app. simpl. lia.
Qed.

(** Every endpoint of a path from [start] was visited, at a depth below
    the length of the path. *)
Lemma bfs_reaches (p : list Z) :
  ∀ v, path_between (out_step sts) start v p →
       marked V v ∧ 0 ≤ v < Z.of_nat (length sts) ∧ (d v < length p)%nat.
Proof.
  destruct I. destruct inv_start0 as (Hsm & Hsp & Hsd).
  induction p as [|x p IH] using rev_ind; intros v (Hhead & Hlast & Hchain);
    [done|].
  rewrite last_snoc in Hlast. injection Hlast as ->.
  rewrite length_app. simpl.
  destruct (last p) as [u|] eqn:Hu.
  - destruct (chain_snoc_inv _ _ _ _ Hchain Hu) as [Hp Huv].
    destruct (IH u) as (Hum & Huvalid & Hdu).
    { split_and!; [|done|done]. destruct p; [done|]. done. }
    destruct (inv_done0 u v Huvalid Hum) as [Hvm Hdv]; [|done|].
    { intros Hin. by apply elem_of_nil in Hin. }
    refine (conj Hvm (conj _ _)); [by eapply out_step_target|lia].
  - apply last_None in Hu as ->. simpl in Hhead. injection Hhead as ->.
    split_and!; [done|lia|lia|lia].
Qed.
End bfs_result.

(** [bfs] from an explicit valid start, over the outgoing lists. *)
Lemma bfs_from_correct (m : FiniteStateMachine) (end_ start : Z) :
  targets_valid (states m) →
  valid_id m start → valid_id m end_ →
  ∃ path, bfs_from m end_ start = Ok path ∧
    ((path_between (out_step (states m)) start end_ path ∧
      ∀ p, path_between (out_step (states m)) start end_ p →
           (length path ≤ length p)%nat) ∨
     (path = [] ∧ ∀ p, ¬ path_between (out_step (states m)) start end_ p)).
Proof.
  intros Htargets Hstart Hend. unfold valid_id in *. unfold bfs_from.
  set (n := length (states m)) in *.
  rewrite py_setitem_valid by (by rewrite length_replicate). rewrite rbind_Ok.
  destruct (bfs_search_inv (states m) start Htargets (S n) _ _ _ _
              (bfs_inv_initial (states m) start Hstart))
    as (d & V & P & Hsearch & I).
  { simpl.
    pose proof (unmarked_count_insert (replicate n false) (Z.to_nat start)) as Hcount.
    rewrite unmarked_count_replicate in Hcount.
    specialize (Hcount ltac:(apply lookup_replicate; split; [done|lia])).
    fold n. lia. }
  fold n in Hsearch. rewrite Hsearch, rbind_Ok.
  pose proof (bfs_reaches _ _ _ _ _ Htargets I) as Hreach.
  destruct (inv_start _ _ _ _ _ _ I) as (Hsm & _ & _).
  destruct (lookup_valid V end_) as [seen Hseen].
  { by rewrite (inv_len_visited _ _ _ _ _ _ I). }
  destruct seen.
  - destruct (bfs_walk_tree _ _ _ _ _ I (d end_) end_ [] (S n))
      as (p & Hwalk & Hpath & Hlen); [done|done|done| |].
    { pose proof (inv_depth _ _ _ _ _ _ I end_ Hend Hseen) as Hdepth.
      fold n in Hdepth. lia. }
    rewrite Hwalk, rbind_Ok. simpl. rewrite reverse_involutive.
    pose proof Hpath as (Hhead & Hlast & Hchain).
    destruct p as [|x p]; [done|]. simpl in Hhead. injection Hhead as ->.
    rewrite (py_getitem_valid _ 0 start) by done. rewrite rbind_Ok.
    rewrite decide_True by done.
    eexists. split; [done|]. left. split; [done|].
    intros p' Hp'. destruct (Hreach p' end_ Hp') as (_ & _ & Hd). lia.
  - assert (P !! Z.to_nat end_ = Some None) as Hprev.
    { apply (inv_unseen _ _ _ _ _ _ I); [done|]. unfold marked. congruence. }
    assert (bfs_walk (S n) P (Some end_) [] = Ok [end_]) as ->.
    { simpl. rewrite (py_getitem_valid _ _ None) by (lia || done).
      rewrite rbind_Ok. by rewrite bfs_walk_None. }
    rewrite rbind_Ok. change (reverse [end_]) with [end_].
    rewrite (py_getitem_valid _ 0 end_) by done. rewrite rbind_Ok.
    rewrite decide_False.
    2:{ intros ->. unfold marked in Hsm. congruence. }
    eexists. split; [done|]. right. split; [done|].
    intros p Hp. destruct (Hreach p end_ Hp) as (Hm & _). unfold marked in Hm.
    congruence.
Qed.

Lemma out_step_stored (m : FiniteStateMachine) u v :
  wf_machine m → out_step (states m) u v → stored_edge m u v.
Proof.
  intros Hwf (st & t & Hu & Hst & Ht & Hto).
  apply (wf_outgoing m Hwf _ st t Hst) in Ht as [Ht Hfrom].
  exists t. split; [done|]. split; [lia|done].
Qed.

Lemma stored_out_step (m : FiniteStateMachine) u v :
  wf_machine m → stored_edge m u v → out_step (states m) u v.
Proof.
  intros Hwf (t & Ht & [Hfrom Hto]).
  destruct (wf_endpoints m Hwf t Ht) as [Hvalid _]. rewrite Hfrom in Hvalid.
  destruct (lookup_valid _ _ Hvalid) as [st Hst].
  exists st, t. split_and!; [apply Hvalid|done| |done].
  apply (wf_outgoing m Hwf _ st t Hst). split; [done|]. unfold valid_id in Hvalid. lia.
Qed.

Lemma path_between_impl (edge edge' : Z → Z → Prop) s e p :
  (∀ u v, edge u v → edge' u v) →
  path_between edge s e p → path_between edge' s e p.
Proof.
  intros Himpl (Hhead & Hlast & Hchain). split_and!; [done|done|].
  by eapply chain_impl.
Qed.

(** C6: on a machine satisfying the data-model invariants, for valid ids
    [start] and [end], [bfs(end, start)] returns; the result is empty exactly
    when [end] is unreachable from [start] along stored transitions;
    otherwise it is a path from [start] to [end] whose consecutive ids are
    joined by stored transitions and which is no longer than any other such
    path; and [bfs(start, start)] is [[start]]. *)
Theorem bfs_shortest_path (w : World) (end_ start : Z) :
  wf_machine (machine w) →
  valid_id (machine w) start → valid_id (machine w) end_ →
  ∃ path, bfs end_ (Some start) w = (Ok path, w) ∧
    (path = [] ↔ ¬ reachable (machine w) start end_) ∧
    (path ≠ [] →
       path_between (stored_edge (machine w)) start end_ path ∧
       ∀ p, path_between (stored_edge (machine w)) start end_ p →
            (length path ≤ length p)%nat) ∧
    (start = end_ → path = [start]).
Proof.
  intros Hwf Hstart Hend.
  destruct (bfs_from_correct (machine w) end_ start
              (wf_targets_valid _ Hwf) Hstart Hend)
    as (path & Hrun & Hcases).
  assert (∀ p, path_between (stored_edge (machine w)) start end_ p ↔
               path_between (out_step (states (machine w))) start end_ p) as Hedges.
  { intros p. split; apply path_between_impl; intros u v.
    - by apply stored_out_step.
    - by apply out_step_stored. }
  exists path. split.
  { unfold bfs. rewrite (M_bind_Ok _ _ w (machine w) w) by done.
    unfold lift. simpl. by rewrite Hrun. }
  destruct Hcases as [[Hpath Hshort]|[-> Hnone]].
  - apply Hedges in Hpath.
    assert (∀ p, path_between (stored_edge (machine w)) start end_ p →
                 (length path ≤ length p)%nat) as Hshort'.
    { intros p Hp. apply Hshort. by apply Hedges. }
    split_and!.
    + split.
      * intros ->. by destruct Hpath as ([=] & _).
      * intros Hnot. exfalso. apply Hnot. by exists path.
    + done.
    + intros <-. specialize (Hshort' [start] ltac:(done)).
      destruct Hpath as (Hhead & _).
      destruct path as [|x [|y path]]; simpl in *; [done| |lia].
      by injection Hhead as ->.
  - split_and!.
    + split; [|done]. intros _ [p Hp]. apply (Hnone p). by apply Hedges.
    + done.
    + intros <-. exfalso. apply (Hnone [start]). done.
Qed.

Lemma bfs_shortest_path_witness :
  ∃ path, bfs 2 (Some 0) (fresh fixture) = (Ok path, fresh fixture) ∧
    (path = [] ↔ ¬ reachable fixture 0 2) ∧
    (path ≠ [] →
       path_between (stored_edge fixture) 0 2 path ∧
       ∀ p, path_between (stored_edge fixture) 0 2 p →
            (length path ≤ length p)%nat) ∧
    (0 = 2 → path = [0]).
Proof.
  apply (bfs_shortest_path (fresh fixture) 2 0).
  - exact fixture_wf.
  - unfold valid_id. simpl. lia.
  - unfold valid_id. simpl. lia.
Defined.

(** * Further properties of the code *)

(** ** Name lookup *)

Lemma first_named (sts : list State) (nm : string) :
  (∀ st, st ∈ sts → name st ≠ nm) ∨
  ∃ s st, sts !! s = Some st ∧ name st = nm ∧
          ∀ i st', (i < s)%nat → sts !! i = Some st' → name st' ≠ nm.
Proof.
  induction sts as [|x sts IH]; [left; intros st Hst; by apply elem_of_nil in Hst|].
  destruct (decide (name x = nm)) as [Hx|Hx].
  { right. exists 0%nat, x. split_and!; [done|done|lia]. }
  destruct IH as [Hnone|(s & st & Hs & Hnm & Hfirst)].
  - left. intros st [->|Hst]%elem_of_cons; [done|by apply Hnone].
  - right. exists (S s), st. split_and!; [done|done|].
    intros [|i] st' Hi Hst'; simpl in Hst'; [congruence|].
    apply (Hfirst i st'); [lia|done].
Qed.

(** X1: [find_state] never raises and leaves the world alone; it answers
    [-1] exactly when no state carries the name, and otherwise the index of
    the first state that carries it, which is a valid id. *)
Theorem find_state_first_or_sentinel (w : World) (nm : string) :
  ∃ r, find_state nm w = (Ok r, w) ∧
    ((r = -1 ∧ ∀ st, st ∈ states (machine w) → name st ≠ nm) ∨
     (valid_id (machine w) r ∧
      ∃ st, states (machine w) !! Z.to_nat r = Some st ∧ name st = nm ∧
            ∀ i st', (i < Z.to_nat r)%nat → states (machine w) !! i = Some st' →
                     name st' ≠ nm)).
Proof.
  destruct (first_named (states (machine w)) nm) as [Hnone|(s & st & Hs & Hnm & Hfirst)].
  - exists (-1). split; [by apply find_state_missing|]. by left.
  - exists (Z.of_nat s). split; [by eapply find_state_first|]. right.
    rewrite Nat2Z.id. split; [|by exists st].
    unfold valid_id. apply lookup_lt_Some in Hs. lia.
Qed.

(** ** [load_states] *)

(** X2: [load_states] turns each row into a state named by its first column,
    in row order and with empty transition lists, when every row has a first
    column; a row without one makes it raise [IndexError]. *)
Theorem load_states_rows (rows : list (list string)) :
  ((∀ row, row ∈ rows → row ≠ []) →
   ∃ sts, load_states rows = Ok sts ∧
          length sts = length rows ∧
          ∀ i row, rows !! i = Some row →
            ∃ nm, row !! 0%nat = Some nm ∧ sts !! i = Some (MkState nm [] [])) ∧
  ([] ∈ rows → load_states rows = Raise IndexError).
Proof.
  split.
  - intros Hrows. induction rows as [|row rows IH].
    { exists []. split_and!; [done|done|]. intros i row Hi. done. }
    destruct row as [|nm row]; [exfalso; eapply Hrows; [left|done]|].
    destruct IH as (sts & Hsts & Hlen & Hlook).
    { intros r Hr. apply Hrows. by right. }
    exists (MkState nm [] [] :: sts). simpl. rewrite Hsts. simpl.
    split_and!; [done|by rewrite Hlen|].
    intros [|i] r Hr; simpl in Hr.
    + injection Hr as <-. by exists nm.
    + by apply Hlook.
  - induction rows as [|row rows IH]; intros Hin; [by apply elem_of_nil in Hin|].
    destruct row as [|nm row]; [done|].
    apply elem_of_cons in Hin as [Hin|Hin]; [done|].
    simpl. by rewrite (IH Hin).
Qed.

Lemma load_states_rows_witness :
  (∃ sts, load_states fixture_state_rows = Ok sts ∧
          length sts = length fixture_state_rows ∧
          ∀ i row, fixture_state_rows !! i = Some row →
            ∃ nm, row !! 0%nat = Some nm ∧ sts !! i = Some (MkState nm [] [])) ∧
  load_states [["start"]; []] = Raise IndexError.
Proof.
  split.
  - apply (load_states_rows fixture_state_rows).
    intros row Hrow.
    repeat (apply elem_of_cons in Hrow as [->|Hrow]; [done|]).
    by apply elem_of_nil in Hrow.
  - apply (load_states_rows [["start"]; []]). right; left.
Defined.

(** ** [register_listener] and dispatch *)

(** X3: [register_listener] appends the listener and touches nothing else;
    a later successful [transition_to] calls the listeners in registration
    order, the new one last; a listener registered twice is called twice. *)
Theorem register_listener_then_transition (w : World) (l : FSMListener)
    (t : Z) (chosen : Transition) :
  first_connecting (transitions (machine w)) (current_state (machine w)) t chosen →
  ∃ w1,
    register_listener l w = (Ok tt, w1) ∧
    states (machine w1) = states (machine w) ∧
    transitions (machine w1) = transitions (machine w) ∧
    current_state (machine w1) = current_state (machine w) ∧
    listeners (machine w1) = listeners (machine w) ++ [l] ∧
    calls w1 = calls w ∧
    (transition_to t w1).2 =
      MkWorld (with_current (machine w1) t)
        (calls w
         ++ exit_calls (listeners (machine w) ++ [l]) (current_state (machine w))
         ++ enter_calls (listeners (machine w) ++ [l]) t chosen) ∧
    ∃ w2,
      register_listener l w1 = (Ok tt, w2) ∧
      listeners (machine w2) = listeners (machine w) ++ [l; l].
Proof.
  intros Hfirst. eexists. split; [reflexivity|]. simpl.
  split_and!; try done.
  - rewrite transition_to_found with (chosen := chosen); [done|].
    simpl. by apply first_connecting_find.
  - eexists. split; [reflexivity|]. simpl. by rewrite <- app_assoc.
Qed.

Lemma register_listener_then_transition_witness :
  ∃ w1,
    register_listener 7%nat (fresh fixture) = (Ok tt, w1) ∧
    states (machine w1) = states fixture ∧
    transitions (machine w1) = transitions fixture ∧
    current_state (machine w1) = 0 ∧
    listeners (machine w1) = [] ++ [7%nat] ∧
    calls w1 = [] ∧
    (transition_to 1 w1).2 =
      MkWorld (with_current (machine w1) 1)
        ([] ++ exit_calls ([] ++ [7%nat]) 0
            ++ enter_calls ([] ++ [7%nat]) 1 (MkTransition 0 1 None)) ∧
    ∃ w2,
      register_listener 7%nat w1 = (Ok tt, w2) ∧
      listeners (machine w2) = [] ++ [7%nat; 7%nat].
Proof.
  apply (register_listener_then_transition (fresh fixture) 7%nat 1
           (MkTransition 0 1 None)).
  exists [], [MkTransition 1 2 (Some "press_a")]. split_and!; [done|done|].
  intros t' Ht'. by apply elem_of_nil in Ht'.
Defined.

(** ** [transition_to]: the needed transition, and bounds *)

Lemma transition_to_not_found (w : World) (t : Z) :
  find_transition_in (transitions (machine w)) (current_state (machine w)) t = None →
  transition_to t w =
    (match py_getitem (states (machine w)) (current_state (machine w)) with
     | Ok st1 =>
         match py_getitem (states (machine w)) t with
         | Ok st2 =>
             Raise (ValueError (invalid_transition_message (name st1) (name st2)))
         | Raise e => Raise e
         | OutOfFuel => OutOfFuel
         end
     | Raise e => Raise e
     | OutOfFuel => OutOfFuel
     end, w).
Proof.
  intros Hnone. unfold transition_to.
  rewrite (M_bind_Ok _ _ w (machine w) w) by done.
  rewrite (M_bind_Ok _ _ w None w)
    by (unfold find_transition; rewrite (M_bind_Ok _ _ w (machine w) w) by done;
        unfold mret, M_ret; by rewrite Hnone).
  rewrite (M_bind_Ok _ _ w (machine w) w) by done.
  unfold mbind at 1, M_bind at 1, lift at 1.
  destruct (py_getitem (states (machine w)) (current_state (machine w))) as [st1| |];
    simpl; [|done|done].
  unfold mbind at 1, M_bind at 1, lift at 1.
  by destruct (py_getitem (states (machine w)) t) as [st2| |].
Qed.



Lemma py_getitem_out_of_range {A} (l : list A) (i : Z) :
  ¬ (- Z.of_nat (length l) ≤ i < Z.of_nat (length l)) →
  py_getitem l i = Raise IndexError.
Proof.
  intros Hi. unfold py_getitem, py_index.
  rewrite bool_decide_eq_false_2 by lia.
  by rewrite bool_decide_eq_false_2 by lia.
Qed.

Lemma py_getitem_negative {A} (l : list A) (i : Z) (x : A) :
  - Z.of_nat (length l) ≤ i < 0 →
  l !! Z.to_nat (i + Z.of_nat (length l)) = Some x →
  py_getitem l i = Ok x.
Proof.
  intros Hi Hx. unfold py_getitem, py_index.
  rewrite bool_decide_eq_false_2 by lia.
  rewrite bool_decide_eq_true_2 by lia. by rewrite Hx.
Qed.

(** X5: with no stored transition from [current_state] to [t], a target
    outside the index range of the state list makes [transition_to] raise
    [IndexError] instead of the invalid-transition error, and a negative
    target within range is reported under the name of the state counted from
    the end; in both cases the world is unchanged. *)
Theorem transition_to_target_bounds (w : World) (t : Z) :
  valid_id (machine w) (current_state (machine w)) →
  (∀ t0, t0 ∈ transitions (machine w) →
         ¬ connects (current_state (machine w)) t t0) →
  let n := Z.of_nat (length (states (machine w))) in
  (¬ (- n ≤ t < n) → transition_to t w = (Raise IndexError, w)) ∧
  (- n ≤ t < 0 →
   ∃ st_cur st_t,
     states (machine w) !! Z.to_nat (current_state (machine w)) = Some st_cur ∧
     states (machine w) !! Z.to_nat (t + n) = Some st_t ∧
     transition_to t w =
       (Raise (ValueError (invalid_transition_message (name st_cur) (name st_t))), w)).
Proof.
  intros Hcur Hnone n. apply find_transition_in_None in Hnone.
  rewrite (transition_to_not_found w t Hnone).
  destruct (lookup_valid _ _ Hcur) as [st_cur Hst_cur].
  rewrite (py_getitem_valid _ _ st_cur) by (done || apply Hcur).
  split.
  - intros Hout. by rewrite py_getitem_out_of_range.
  - intros Hneg.
    destruct (lookup_valid (states (machine w)) (t + n)) as [st_t Hst_t];
      [unfold n; lia|].
    exists st_cur, st_t. split_and!; [done|done|].
    by rewrite (py_getitem_negative _ _ st_t).
Qed.

Lemma transition_to_target_bounds_witness :
  (¬ (- 3 ≤ 5 < 3) → transition_to 5 (fresh fixture) = (Raise IndexError, fresh fixture)) ∧
  (- 3 ≤ -1 < 0 →
   ∃ st_cur st_t,
     states fixture !! Z.to_nat 0 = Some st_cur ∧
     states fixture !! Z.to_nat (-1 + 3) = Some st_t ∧
     transition_to (-1) (fresh fixture) =
       (Raise (ValueError (invalid_transition_message (name st_cur) (name st_t))),
        fresh fixture)).
Proof.
  split.
  - apply (transition_to_target_bounds (fresh fixture) 5).
    + unfold valid_id. simpl. lia.
    + intros t0 Hin [Hf Hto]. simpl in *.
      apply elem_of_cons in Hin as [->|Hin]; [discriminate Hto|].
      apply elem_of_cons in Hin as [->|Hin]; [discriminate Hf|].
      by apply elem_of_nil in Hin.
  - apply (transition_to_target_bounds (fresh fixture) (-1)).
    + unfold valid_id. simpl. lia.
    + intros t0 Hin [Hf Hto]. simpl in *.
      apply elem_of_cons in Hin as [->|Hin]; [discriminate Hto|].
      apply elem_of_cons in Hin as [->|Hin]; [discriminate Hf|].
      by apply elem_of_nil in Hin.
Defined.

(** ** Loading: what a successful load required and what it built *)

Lemma py_list_index_absent (l : list string) (x : string) :
  x ∉ l → ∃ msg, py_list_index l x = Raise (ValueError msg).
Proof.
  induction l as [|y l IH]; intros Hx; simpl; [eauto|].
  rewrite decide_False by (intros ->; apply Hx; left).
  destruct IH as [msg ->]; [intros Hin; apply Hx; by right|].
  simpl. eauto.
Qed.

Lemma load_states_Ok_nonempty (rows : list (list string)) (sts : list State) :
  load_states rows = Ok sts → ∀ row, row ∈ rows → row ≠ [].
Proof.
  revert sts. induction rows as [|r rows IH]; intros sts Hok row Hrow.
  { by apply elem_of_nil in Hrow. }
  simpl in Hok.
  apply rbind_Ok_inv in Hok as (nm & Hnm & Hok).
  apply rbind_Ok_inv in Hok as (rest & Hrest & _).
  apply elem_of_cons in Hrow as [->|Hrow]; [|by eapply IH].
  by destruct r.
Qed.

Lemma from_csv_rows_Ok_resolves names rows sts ts out :
  from_csv_rows names rows sts ts = Ok out →
  Forall (row_resolves names) rows.
Proof.
  revert sts ts. induction rows as [|row rows IH]; intros sts ts Hok; [constructor|].
  simpl in Hok.
  apply rbind_Ok_inv in Hok as (r1 & Hr1 & Hok).
  apply rbind_Ok_inv in Hok as (i1 & Hi1 & Hok).
  apply rbind_Ok_inv in Hok as (r2 & Hr2 & Hok).
  apply rbind_Ok_inv in Hok as (i2 & Hi2 & Hok).
  apply rbind_Ok_inv in Hok as (r0 & Hr0 & Hok).
  apply rbind_Ok_inv in Hok as (sts1 & Hsts1 & Hok).
  apply rbind_Ok_inv in Hok as (sts2 & Hsts2 & Hok).
  constructor; [|by eapply IH].
  apply py_getitem_Ok_inv in Hr0; [|done].
  apply py_getitem_Ok_inv in Hr1; [|done].
  apply py_getitem_Ok_inv in Hr2; [|done].
  apply py_list_index_Ok in Hi1 as [_ Hi1]. apply py_list_index_Ok in Hi2 as [_ Hi2].
  exists r0, r1, r2. split_and!; [done|done|done| |].
  - by eapply list_elem_of_lookup_2.
  - by eapply list_elem_of_lookup_2.
Qed.

(** A load succeeds only on tables that [from_csv] can process in full. *)
Lemma from_csv_Ok_inputs (state_rows transition_rows : list (list string)) m :
  from_csv state_rows transition_rows = Ok m →
  (∀ row, row ∈ state_rows → row ≠ []) ∧
  Forall (row_resolves (table_names state_rows)) transition_rows.
Proof.
  intros Hload. unfold from_csv in Hload.
  apply rbind_Ok_inv in Hload as (sts & Hsts & Hload).
  apply rbind_Ok_inv in Hload as ([sts' ts] & Hrows & _).
  split; [by eapply load_states_Ok_nonempty|].
  apply load_states_Ok in Hsts. subst sts. rewrite table_names_states in Hrows.
  by eapply from_csv_rows_Ok_resolves.
Qed.

Lemma from_csv_Ok_built (state_rows transition_rows : list (list string)) m :
  from_csv state_rows transition_rows = Ok m →
  map name (states m) = table_names state_rows ∧
  current_state m = 0 ∧ listeners m = [] ∧
  Forall2 (created (table_names state_rows)) transition_rows (transitions m) ∧
  ∀ i st, states m !! i = Some st →
    outgoing st = filter (λ t, from_state t = Z.of_nat i) (transitions m) ∧
    incoming st = filter (λ t, to_state t = Z.of_nat i) (transitions m).
Proof.
  intros Hload. destruct (from_csv_Ok_inputs _ _ _ Hload) as [Hrows Hres].
  destruct (from_csv_resolved _ _ Hrows Hres) as (m' & Hload' & Hbuilt).
  rewrite Hload in Hload'. by injection Hload' as <-.
Qed.

(** X6: every machine that [from_csv] returns from a non-empty state table
    satisfies the invariants of the data model: endpoints and
    [current_state] are valid ids and the per-state lists hold exactly the
    transitions leaving and entering the state.  From an empty state table
    the load can only succeed without transitions, and then [current_state]
    is [0] although no state exists. *)
Theorem from_csv_establishes_invariants
    (state_rows transition_rows : list (list string)) (m : FiniteStateMachine) :
  from_csv state_rows transition_rows = Ok m →
  (state_rows ≠ [] → wf_machine m) ∧
  (state_rows = [] →
   states m = [] ∧ transitions m = [] ∧ current_state m = 0 ∧
   ¬ valid_id m (current_state m)).
Proof.
  intros Hload. destruct (from_csv_Ok_inputs _ _ _ Hload) as [Hrows Hres].
  split.
  - intros Hsome.
    destruct (from_csv_wf _ _ Hsome Hrows Hres) as (m' & Hload' & Hwf).
    rewrite Hload in Hload'. by injection Hload' as <-.
  - intros ->.
    destruct (from_csv_Ok_built _ _ _ Hload) as (Hnames & Hcur & _ & Hcreated & _).
    assert (states m = []) as Hst.
    { apply (f_equal length) in Hnames. rewrite length_map in Hnames.
      by apply nil_length_inv. }
    split_and!; [done| |done|].
    + destruct (transitions m) as [|t ts]; [done|exfalso].
      apply Forall2_cons_inv_r in Hcreated
        as (row & rows & (r0 & r1 & r2 & _ & _ & _ & Hfrom & _) & _ & _).
      discriminate Hfrom.
    + unfold valid_id. rewrite Hst, Hcur. simpl. lia.
Qed.

Lemma from_csv_establishes_invariants_witness :
  (fixture_state_rows ≠ [] → wf_machine fixture) ∧
  (([] : list (list string)) = [] →
   states (init 0 [] []) = [] ∧ transitions (init 0 [] []) = [] ∧
   current_state (init 0 [] []) = 0 ∧
   ¬ valid_id (init 0 [] []) (current_state (init 0 [] []))).
Proof.
  split.
  - apply (from_csv_establishes_invariants
             fixture_state_rows fixture_transition_rows fixture).
    reflexivity.
  - apply (from_csv_establishes_invariants [] [] (init 0 [] [])).
    reflexivity.
Defined.

(** X7: after a successful load from a state table without repeated names,
    looking a table name up with [find_state] gives back its row number,
    whatever has happened to [current_state], listeners or the call log
    since. *)
Theorem find_state_after_load
    (state_rows transition_rows : list (list string)) (m : FiniteStateMachine)
    (w : World) (i : nat) (nm : string) :
  from_csv state_rows transition_rows = Ok m →
  NoDup (table_names state_rows) →
  states (machine w) = states m →
  table_names state_rows !! i = Some nm →
  find_state nm w = (Ok (Z.of_nat i), w).
Proof.
  intros Hload Hnodup Hsame Hnm.
  destruct (from_csv_Ok_built _ _ _ Hload) as (Hnames & _).
  rewrite <- Hsame in Hnames.
  assert (name <$> states (machine w) !! i = Some nm) as Hlook.
  { by rewrite <- list_lookup_fmap, <- Hnm, <- Hnames. }
  destruct (states (machine w) !! i) as [st|] eqn:Hst; [|done].
  injection Hlook as Hname.
  apply (find_state_first w nm i st Hst Hname).
  intros j st' Hj Hst' Hname'.
  assert (j = i); [|lia].
  eapply (NoDup_lookup _ j i nm Hnodup).
  - by rewrite <- Hnames, list_lookup_fmap, Hst', <- Hname'.
  - done.
Qed.

Lemma find_state_after_load_witness :
  find_state "end" (fresh (with_current fixture 1))
  = (Ok (Z.of_nat 2), fresh (with_current fixture 1)).
Proof.
  apply (find_state_after_load fixture_state_rows fixture_transition_rows fixture
           (fresh (with_current fixture 1)) 2 "end").
  - reflexivity.
  - vm_compute. repeat (constructor; [intros Hin;
      repeat (apply elem_of_cons in Hin as [Hin|Hin]; [discriminate Hin|]);
      by apply elem_of_nil in Hin|]). constructor.
  - reflexivity.
  - reflexivity.
Defined.

Lemma filter_none {A} (P : A → Prop) `{∀ x, Decision (P x)} (l : list A) :
  (∀ x, x ∈ l → ¬ P x) → filter P l = [].
Proof.
  induction l as [|x l IH]; intros Hnone; [done|].
  rewrite filter_cons_False by (apply Hnone; left).
  apply IH. intros y Hy. apply Hnone. by right.
Qed.

(** X8: names are resolved to the first row that carries them: when a state
    name is repeated in the state table, the state of the later row is never
    an endpoint of a loaded transition; its outgoing and incoming lists are
    empty. *)
Theorem from_csv_repeated_name
    (state_rows transition_rows : list (list string)) (m : FiniteStateMachine)
    (i j : nat) (nm : string) (st : State) :
  from_csv state_rows transition_rows = Ok m →
  (i < j)%nat →
  table_names state_rows !! i = Some nm →
  table_names state_rows !! j = Some nm →
  states m !! j = Some st →
  outgoing st = [] ∧ incoming st = [] ∧
  ∀ t, t ∈ transitions m →
       from_state t ≠ Z.of_nat j ∧ to_state t ≠ Z.of_nat j.
Proof.
  intros Hload Hij Hi Hj Hst.
  destruct (from_csv_Ok_built _ _ _ Hload) as (_ & _ & _ & Hcreated & Hlists).
  assert (∀ t, t ∈ transitions m →
               from_state t ≠ Z.of_nat j ∧ to_state t ≠ Z.of_nat j) as Hnever.
  { intros t Ht. apply list_elem_of_lookup in Ht as [k Hk].
    destruct (Forall2_lookup_r _ _ _ _ _ Hcreated Hk)
      as (row & _ & r0 & r1 & r2 & _ & _ & _ & Hfrom & Hto & _).
    split; intros Heq.
    - pose proof (py_list_index_Ok _ _ _ Hfrom) as [_ Hlook].
      rewrite Heq, Nat2Z.id in Hlook.
      assert (r1 = nm) as -> by congruence.
      apply (py_list_index_first _ _ _ Hfrom i); [lia|done].
    - pose proof (py_list_index_Ok _ _ _ Hto) as [_ Hlook].
      rewrite Heq, Nat2Z.id in Hlook.
      assert (r2 = nm) as -> by congruence.
      apply (py_list_index_first _ _ _ Hto i); [lia|done]. }
  destruct (Hlists j st Hst) as [-> ->].
  split_and!; [| |done]; apply filter_none; intros t Ht Heq;
    by destruct (Hnever t Ht).
Qed.

Lemma from_csv_repeated_name_witness :
  let m := init 0 [MkState "a" [MkTransition 0 0 None] [MkTransition 0 0 None];
                   MkState "a" [] []] [MkTransition 0 0 None] in
  outgoing (MkState "a" [] []) = [] ∧ incoming (MkState "a" [] []) = [] ∧
  ∀ t, t ∈ transitions m →
       from_state t ≠ Z.of_nat 1 ∧ to_state t ≠ Z.of_nat 1.
Proof.
  apply (from_csv_repeated_name [["a"]; ["a"]] [[EmptyString; "a"; "a"]]
           (init 0 [MkState "a" [MkTransition 0 0 None] [MkTransition 0 0 None];
                    MkState "a" [] []] [MkTransition 0 0 None])
           0 1 "a" (MkState "a" [] [])).
  - reflexivity.
  - lia.
  - reflexivity.
  - reflexivity.
  - reflexivity.
Defined.

(** ** Loading: which exception a malformed transition table gives *)

Lemma from_csv_rows_app names (pre rest : list (list string)) sts ts :
  from_csv_rows names (pre ++ rest) sts ts =
  '(sts', ts') ← from_csv_rows names pre sts ts;
  from_csv_rows names rest sts' ts'.
Proof.
  revert sts ts. induction pre as [|row pre IH]; intros sts ts; [done|].
  simpl.
  destruct (py_getitem row 1) as [r1| |]; simpl; [|done|done].
  destruct (py_list_index names r1) as [i1| |]; simpl; [|done|done].
  destruct (py_getitem row 2) as [r2| |]; simpl; [|done|done].
  destruct (py_list_index names r2) as [i2| |]; simpl; [|done|done].
  destruct (py_getitem row 0) as [r0| |]; simpl; [|done|done].
  destruct (append_outgoing _ _ _) as [sts1| |]; simpl; [|done|done].
  destruct (append_incoming _ _ _) as [sts2| |]; simpl; [|done|done].
  apply IH.
Qed.

Lemma py_getitem_missing {A} (l : list A) (i : nat) :
  l !! i = None → py_getitem l (Z.of_nat i) = Raise IndexError.
Proof.
  intros Hi. apply lookup_ge_None_1 in Hi.
  unfold py_getitem, py_index.
  rewrite bool_decide_eq_false_2 by lia.
  case_bool_decide as Hneg; [lia|done].
Qed.

(** X9: the exception of a failed load is decided by the first transition
    row that cannot be processed: [IndexError] when the row lacks its second
    column, [ValueError] when its source name is not in the state table,
    [IndexError] when the source is known and the third column is missing,
    and [ValueError] when the destination name is not in the state table. *)
Theorem from_csv_first_bad_row
    (state_rows pre post : list (list string)) (row : list string) :
  (∀ r, r ∈ state_rows → r ≠ []) →
  Forall (row_resolves (table_names state_rows)) pre →
  let names := table_names state_rows in
  let load := from_csv state_rows (pre ++ row :: post) in
  (row !! 1%nat = None → load = Raise IndexError) ∧
  (∀ r1, row !! 1%nat = Some r1 → r1 ∉ names → ∃ msg, load = Raise (ValueError msg)) ∧
  (∀ r1, row !! 1%nat = Some r1 → r1 ∈ names → row !! 2%nat = None →
         load = Raise IndexError) ∧
  (∀ r1 r2, row !! 1%nat = Some r1 → r1 ∈ names → row !! 2%nat = Some r2 →
            r2 ∉ names → ∃ msg, load = Raise (ValueError msg)).
Proof.
  intros Hrows Hpre names load. subst names load.
  assert (∃ sts ts,
    from_csv state_rows (pre ++ row :: post)
    = from_csv_rows (table_names state_rows) (row :: post) sts ts
      ≫= λ '(sts, ts), Ok (init 0 sts ts)) as (sts & ts & ->).
  { unfold from_csv. rewrite (load_states_nonempty _ Hrows), rbind_Ok.
    rewrite table_names_states.
    rewrite from_csv_rows_app.
    destruct (from_csv_rows_resolved _ _ Hpre
                (map (λ nm, MkState nm [] []) (table_names state_rows)) [])
      as (sts & new & -> & _); [by rewrite !length_map|].
    rewrite rbind_Ok. by exists sts, ([] ++ new). }
  assert (∀ r1, row !! 1%nat = Some r1 → py_getitem row 1 = Ok r1) as Hcol1.
  { intros r1 H1. apply (py_getitem_nat row 1 r1 H1). }
  assert (∀ r2, row !! 2%nat = Some r2 → py_getitem row 2 = Ok r2) as Hcol2.
  { intros r2 H2. apply (py_getitem_nat row 2 r2 H2). }
  simpl. split_and!.
  - intros H1. pose proof (py_getitem_missing row 1 H1) as Hmiss.
    change (Z.of_nat 1) with 1 in Hmiss. by rewrite Hmiss.
  - intros r1 H1 Habs. rewrite (Hcol1 r1 H1), rbind_Ok.
    destruct (py_list_index_absent _ _ Habs) as [msg ->]. by exists msg.
  - intros r1 H1 Hin H2. rewrite (Hcol1 r1 H1), rbind_Ok.
    destruct (py_list_index_elem_of _ _ Hin) as [i1 ->]. rewrite rbind_Ok.
    pose proof (py_getitem_missing row 2 H2) as Hmiss.
    change (Z.of_nat 2) with 2 in Hmiss. by rewrite Hmiss.
  - intros r1 r2 H1 Hin H2 Habs. rewrite (Hcol1 r1 H1), rbind_Ok.
    destruct (py_list_index_elem_of _ _ Hin) as [i1 ->]. rewrite rbind_Ok.
    rewrite (Hcol2 r2 H2), rbind_Ok.
    destruct (py_list_index_absent _ _ Habs) as [msg ->]. by exists msg.
Qed.

Lemma from_csv_first_bad_row_witness :
  let names := table_names fixture_state_rows in
  let load row := from_csv fixture_state_rows
                    ([[EmptyString; "start"; "middle"]] ++ row :: []) in
  load ["press_a"] = Raise IndexError ∧
  (∃ msg, load ["press_a"; "nowhere"] = Raise (ValueError msg)) ∧
  load ["press_a"; "middle"] = Raise IndexError ∧
  (∃ msg, load ["press_a"; "middle"; "nowhere"] = Raise (ValueError msg)).
Proof.
  assert (∀ r, r ∈ fixture_state_rows → r ≠ []) as Hrows.
  { intros row Hrow.
    repeat (apply elem_of_cons in Hrow as [->|Hrow]; [done|]).
    by apply elem_of_nil in Hrow. }
  assert (Forall (row_resolves (table_names fixture_state_rows))
            [[EmptyString; "start"; "middle"]]) as Hpre.
  { repeat constructor. exists EmptyString, "start", "middle".
    split_and!; try done; vm_compute; [left|right; left]. }
  assert ("nowhere" ∉ table_names fixture_state_rows) as Habs.
  { vm_compute. intros Hin.
    repeat (apply elem_of_cons in Hin as [Hin|Hin]; [discriminate Hin|]).
    by apply elem_of_nil in Hin. }
  assert ("middle" ∈ table_names fixture_state_rows) as Hin.
  { vm_compute. right; left. }
  intros names load. split_and!.
  - by apply (from_csv_first_bad_row fixture_state_rows _ [] ["press_a"] Hrows Hpre).
  - by apply (from_csv_first_bad_row fixture_state_rows _ []
                ["press_a"; "nowhere"] Hrows Hpre) with (r1 := "nowhere").
  - by apply (from_csv_first_bad_row fixture_state_rows _ []
                ["press_a"; "middle"] Hrows Hpre) with (r1 := "middle").
  - by apply (from_csv_first_bad_row fixture_state_rows _ []
                ["press_a"; "middle"; "nowhere"] Hrows Hpre)
      with (r1 := "middle") (r2 := "nowhere").
Defined.

(** ** [bfs]: the shape of the returned path *)

Section bfs_tree_depths.
Variables (sts : list State) (start : Z) (d : Z → nat).
Variables (V : list bool) (P : list (option Z)).
Hypothesis I : bfs_inv sts start d [] V P.

(** The walk back from a visited state passes through states of depth
    [0, 1, 2, ...], all of them visited. *)
Lemma bfs_walk_depths (k : nat) :
  ∀ v acc fuel,
    d v = k → 0 ≤ v < Z.of_nat (length sts) → marked V v → (k < fuel)%nat →
    ∃ p, bfs_walk fuel P (Some v) acc = Ok (acc ++ reverse p) ∧
         length p = S k ∧
         ∀ i x, p !! i = Some x →
           d x = i ∧ 0 ≤ x < Z.of_nat (length sts) ∧ marked V x.
Proof.
  destruct I. destruct inv_start0 as (Hsm & Hsp & Hsd).
  induction k as [|k IH]; intros v acc fuel Hd Hv Hm Hfuel;
    (destruct fuel as [|fuel]; [lia|]); simpl.
  - destruct (decide (v = start)) as [->|Hne].
    + rewrite (py_getitem_valid _ _ None) by (lia || done). simpl.
      rewrite bfs_walk_None. exists [start]. split_and!; [done|done|].
      intros [|i] x Hx; simpl in Hx; [|done]. injection Hx as <-. done.
    + destruct (inv_prev0 v Hv Hm Hne) as (u & _ & _ & _ & _ & Hdu). lia.
  - destruct (decide (v = start)) as [->|Hne]; [lia|].
    destruct (inv_prev0 v Hv Hm Hne) as (u & Hpu & Hu & Hum & Huv & Hdu).
    rewrite (py_getitem_valid _ _ (Some u)) by (lia || done). simpl.
    destruct (IH u (acc ++ [v]) fuel) as (p & -> & Hlen & Hdepth);
      [lia|done|done|lia|].
    exists (p ++ [v]). split_and!.
    + by rewrite reverse_snoc, <- app_assoc.
    + rewrite length_app. simpl. lia.
    + intros i x [Hx|[Hge Hx]]%lookup_app_Some; [by apply Hdepth|].
      apply list_lookup_singleton_Some in Hx as [Hi <-].
      split; [lia|done].
Qed.
End bfs_tree_depths.

Lemma bfs_search_from_start (sts : list State) (start : Z) :
  targets_valid sts → 0 ≤ start < Z.of_nat (length sts) →
  ∃ d V P,
    bfs_search (S (length sts)) sts [start]
      (<[Z.to_nat start:=true]> (replicate (length sts) false))
      (replicate (length sts) None) = Ok (V, P) ∧
    bfs_inv sts start d [] V P.
Proof.
  intros Htargets Hstart.
  apply (bfs_search_inv sts start Htargets (S (length sts)) _ _ _ _
           (bfs_inv_initial sts start Hstart)).
  simpl.
  pose proof (unmarked_count_insert (replicate (length sts) false) (Z.to_nat start))
    as Hcount.
  rewrite unmarked_count_replicate in Hcount.
  specialize (Hcount ltac:(apply lookup_replicate; split; [done|lia])). lia.
Qed.

Lemma NoDup_by_index {A} (l : list A) (f : A → nat) :
  (∀ i x, l !! i = Some x → f x = i) → NoDup l.
Proof.
  intros Hf. apply NoDup_alt. intros i j x Hi Hj.
  by rewrite <- (Hf i x Hi), <- (Hf j x Hj).
Qed.

(** The result of [bfs] from an explicit valid start: as
    [bfs_from_correct], and the path repeats no state. *)
Lemma bfs_from_simple (m : FiniteStateMachine) (end_ start : Z) :
  targets_valid (states m) →
  valid_id m start → valid_id m end_ →
  ∃ path, bfs_from m end_ start = Ok path ∧
    NoDup path ∧ (∀ x, x ∈ path → valid_id m x) ∧
    (length path ≤ length (states m))%nat ∧
    ((path_between (out_step (states m)) start end_ path ∧
      ∀ p, path_between (out_step (states m)) start end_ p →
           (length path ≤ length p)%nat) ∨
     (path = [] ∧ ∀ p, ¬ path_between (out_step (states m)) start end_ p)).
Proof.
  intros Htargets Hstart Hend.
  destruct (bfs_from_correct m end_ start Htargets Hstart Hend)
    as (path & Hrun & Hcases).
  exists path. split; [done|].
  destruct Hcases as [[Hpath Hshort]|[-> Hnone]].
  2:{ split_and!; [constructor| |simpl; lia|by right].
      intros x Hx. by apply elem_of_nil in Hx. }
  assert (NoDup path ∧ (∀ x, x ∈ path → valid_id m x) ∧
          (length path ≤ length (states m))%nat) as (? & ? & ?);
    [|split_and!; [done|done|done|by left]].
  unfold valid_id in *. unfold bfs_from in Hrun.
  rewrite py_setitem_valid in Hrun by (by rewrite length_replicate).
  rewrite rbind_Ok in Hrun.
  destruct (bfs_search_from_start (states m) start Htargets Hstart)
    as (d & V & P & Hsearch & I).
  rewrite Hsearch, rbind_Ok in Hrun.
  pose proof (bfs_reaches _ _ _ _ _ Htargets I path end_ Hpath) as (Hm & _ & _).
  destruct (bfs_walk_depths _ _ _ _ _ I (d end_) end_ [] (S (length (states m))))
    as (p & Hwalk & Hlen & Hdepth); [done|done|done| |].
  { pose proof (inv_depth _ _ _ _ _ _ I end_ Hend Hm). lia. }
  rewrite Hwalk, rbind_Ok in Hrun. simpl in Hrun.
  rewrite reverse_involutive in Hrun.
  apply rbind_Ok_inv in Hrun as (p0 & Hp0 & Hrun).
  case_decide as Hhead; injection Hrun as <-.
  2:{ by destruct Hpath as ([=] & _). }
  split_and!.
  - apply (NoDup_by_index p d). intros i x Hx. by apply Hdepth.
  - intros x [i Hx]%list_elem_of_lookup. by apply Hdepth in Hx as (_ & ? & _).
  - pose proof (inv_depth _ _ _ _ _ _ I end_ Hend Hm). lia.
Qed.

(** X10: the path [bfs] returns for an explicit valid start never repeats a
    state, consists of valid ids only, and has at most as many elements as
    the machine has states. *)
Theorem bfs_path_simple (w : World) (end_ start : Z) :
  wf_machine (machine w) →
  valid_id (machine w) start → valid_id (machine w) end_ →
  ∃ path, bfs end_ (Some start) w = (Ok path, w) ∧
    NoDup path ∧
    (∀ x, x ∈ path → valid_id (machine w) x) ∧
    (length path ≤ length (states (machine w)))%nat.
Proof.
  intros Hwf Hstart Hend.
  destruct (bfs_from_simple (machine w) end_ start
              (wf_targets_valid _ Hwf) Hstart Hend)
    as (path & Hrun & Hnodup & Hvalid & Hlen & _).
  exists path. split; [|done].
  unfold bfs. rewrite (M_bind_Ok _ _ w (machine w) w) by done.
  unfold lift. simpl. by rewrite Hrun.
Qed.

Lemma bfs_path_simple_witness :
  ∃ path, bfs 2 (Some 0) (fresh fixture) = (Ok path, fresh fixture) ∧
    NoDup path ∧
    (∀ x, x ∈ path → valid_id fixture x) ∧
    (length path ≤ length (states fixture))%nat.
Proof.
  apply (bfs_path_simple (fresh fixture) 2 0).
  - exact fixture_wf.
  - unfold valid_id. simpl. lia.
  - unfold valid_id. simpl. lia.
Defined.

(** X11: an [end] outside the index range of the state list makes [bfs]
    raise [IndexError], after the search, and a negative [end] that indexes
    the start state from the end of the list gives the empty path although
    the start state is trivially reachable from itself. *)
Theorem bfs_end_bounds (w : World) (end_ start : Z) :
  wf_machine (machine w) → valid_id (machine w) start →
  let n := Z.of_nat (length (states (machine w))) in
  (¬ (- n ≤ end_ < n) → bfs end_ (Some start) w = (Raise IndexError, w)) ∧
  (end_ = start - n → bfs end_ (Some start) w = (Ok [], w)).
Proof.
  intros Hwf Hstart n. unfold valid_id in Hstart.
  destruct (bfs_search_from_start (states (machine w)) start
              (wf_targets_valid _ Hwf) Hstart) as (d & V & P & Hsearch & I).
  pose proof (inv_len_prev _ _ _ _ _ _ I) as HlenP.
  assert (∀ r, (nxt ← py_getitem P end_;
                bfs_walk (length (states (machine w))) P nxt ([] ++ [end_])) = r →
    bfs end_ (Some start) w =
      (path ← r; let path := reverse path in
       p0 ← py_getitem path 0;
       Ok (if decide (p0 = start) then path else []), w)) as Hrun.
  { intros r <-. unfold bfs. rewrite (M_bind_Ok _ _ w (machine w) w) by done.
    unfold lift, bfs_from. simpl default.
    rewrite py_setitem_valid by (by rewrite length_replicate).
    rewrite rbind_Ok, Hsearch, rbind_Ok. done. }
  split.
  - intros Hout. rewrite (Hrun (Raise IndexError)); [done|].
    rewrite py_getitem_out_of_range; [done|]. rewrite HlenP. done.
  - intros ->. rewrite (Hrun (Ok [start - n])).
    + rewrite rbind_Ok. simpl. rewrite decide_False; [done|]. unfold n. lia.
    + destruct (inv_start _ _ _ _ _ _ I) as (_ & Hprev & _).
      rewrite (py_getitem_negative _ _ None).
      * rewrite rbind_Ok. by rewrite bfs_walk_None.
      * rewrite HlenP. unfold n. lia.
      * rewrite HlenP.
        by replace (start - n + Z.of_nat (length (states (machine w))))
          with start by (unfold n; lia).
Qed.

Lemma bfs_end_bounds_witness :
  (¬ (- 3 ≤ 7 < 3) → bfs 7 (Some 0) (fresh fixture) = (Raise IndexError, fresh fixture)) ∧
  (-3 = 0 - 3 → bfs (-3) (Some 0) (fresh fixture) = (Ok [], fresh fixture)).
Proof.
  split.
  - apply (bfs_end_bounds (fresh fixture) 7 0); [exact fixture_wf|].
    unfold valid_id. simpl. lia.
  - apply (bfs_end_bounds (fresh fixture) (-3) 0); [exact fixture_wf|].
    unfold valid_id. simpl. lia.
Defined.

(** ** Walking a path with [transition_to] *)

Lemma length_exit_calls ls old : length (exit_calls ls old) = length ls.
Proof. unfold exit_calls. by rewrite length_map. Qed.

Lemma length_enter_calls ls new chosen :
  length (enter_calls ls new chosen) = (2 * length ls)%nat.
Proof.
  unfold enter_calls. induction ls as [|l ls IH]; simpl; [done|]. lia.
Qed.

Lemma for_each_cons {A} (x : A) (xs : list A) (body : A → M unit) (w w1 : World) :
  body x w = (Ok tt, w1) →
  for_each (x :: xs) body w = for_each xs body w1.
Proof. intros Hx. simpl. by rewrite (M_bind_Ok _ _ w tt w1). Qed.

(** Along a chain of stored transitions that starts at [current_state],
    the successive [transition_to] calls all succeed. *)
Lemma transition_to_along_chain (p : list Z) :
  ∀ w,
    chain (stored_edge (machine w)) p →
    head p = Some (current_state (machine w)) →
    ∃ w', for_each (drop 1 p) transition_to w = (Ok tt, w') ∧
          same_topology (machine w) (machine w') ∧
          last p = Some (current_state (machine w')) ∧
          length (calls w') =
            (length (calls w) + 3 * length (listeners (machine w)) * (length p - 1))%nat.
Proof.
  induction p as [|c p IH]; intros w Hchain Hhead; [done|].
  destruct p as [|v p].
  { exists w. simpl in *. injection Hhead as ->.
    split_and!; [done|done|done|lia]. }
  destruct Hchain as [Hcv Hchain]. simpl in Hhead. injection Hhead as ->.
  destruct (find_transition_in (transitions (machine w))
              (current_state (machine w)) v) as [chosen|] eqn:Hf.
  2:{ exfalso. destruct Hcv as (t & Ht & Hc).
      by eapply find_transition_in_None. }
  pose proof (transition_to_found w v chosen Hf) as Hstep.
  set (w1 := MkWorld (with_current (machine w) v)
               (calls w ++ exit_calls (listeners (machine w)) (current_state (machine w))
                        ++ enter_calls (listeners (machine w)) v chosen)) in *.
  destruct (IH w1) as (w' & Hrun & (Hs & Ht & Hl) & Hlast & Hcalls); [done|done|].
  exists w'. split_and!.
  - change (drop 1 (current_state (machine w) :: v :: p)) with (v :: p).
    rewrite (for_each_cons _ _ _ w w1 Hstep). exact Hrun.
  - done.
  - done.
  - rewrite Hcalls. unfold w1. simpl.
    rewrite !length_app, length_exit_calls, length_enter_calls. lia.
Qed.

(** X12: [bfs] and [transition_to] compose.  When [end] is reachable from
    [current_state], the path that [bfs] returns for [start = current_state]
    can be walked: calling [transition_to] on its second, third, ... element
    in turn succeeds every time (the listeners' callbacks returning), the
    machine ends in state [end] with its states, transitions and listeners
    unchanged, and every listener has received three callbacks per step. *)
Theorem bfs_path_transitions_succeed (w : World) (end_ : Z) :
  wf_machine (machine w) → valid_id (machine w) end_ →
  reachable (machine w) (current_state (machine w)) end_ →
  ∃ path w',
    bfs end_ (Some (current_state (machine w))) w = (Ok path, w) ∧
    for_each (drop 1 path) transition_to w = (Ok tt, w') ∧
    current_state (machine w') = end_ ∧
    same_topology (machine w) (machine w') ∧
    length (calls w') =
      (length (calls w) + 3 * length (listeners (machine w)) * (length path - 1))%nat.
Proof.
  intros Hwf Hend [p Hp].
  destruct (bfs_from_correct (machine w) end_ (current_state (machine w))
              (wf_targets_valid _ Hwf) (wf_current _ Hwf) Hend)
    as (path & Hrun & [[Hpath _]|[_ Hnone]]).
  2:{ exfalso. apply (Hnone p). eapply path_between_impl; [|exact Hp].
      intros u v. by apply stored_out_step. }
  destruct Hpath as (Hhead & Hlast & Hchain).
  destruct (transition_to_along_chain path w) as (w' & Hfollow & Hsame & Hlast' & Hcalls).
  { eapply chain_impl; [|exact Hchain]. intros u v. by apply out_step_stored. }
  { done. }
  exists path, w'. split_and!.
  - unfold bfs. rewrite (M_bind_Ok _ _ w (machine w) w) by done.
    unfold lift. simpl. by rewrite Hrun.
  - done.
  - congruence.
  - done.
  - done.
Qed.

Lemma bfs_path_transitions_succeed_witness :
  let w := MkWorld (MkFiniteStateMachine (states fixture) (transitions fixture)
                      0 [7%nat; 8%nat]) [] in
  ∃ path w',
    bfs 2 (Some 0) w = (Ok path, w) ∧
    for_each (drop 1 path) transition_to w = (Ok tt, w') ∧
    current_state (machine w') = 2 ∧
    same_topology (machine w) (machine w') ∧
    length (calls w') = (0 + 3 * 2 * (length path - 1))%nat.
Proof.
  intros w. apply (bfs_path_transitions_succeed w 2).
  - destruct fixture_wf as [He Hc Ho Hi].
    constructor; [exact He|exact Hc|exact Ho|exact Hi].
  - unfold valid_id. simpl. lia.
  - exists [0; 1; 2]. split_and!; [done|done|]. simpl. split_and!; [| |done].
    + exists (MkTransition 0 1 None). split; [left|done].
    + exists (MkTransition 1 2 (Some "press_a")). split; [right; left|done].
Defined.

(** ** [simulate_action] and [bfs] together *)

Lemma avoiding_path_chain (edge : Z → Z → Prop) (avoid : Z → Prop) u v :
  avoiding_path edge avoid u v → ∃ p, path_between edge u v p.
Proof.
  induction 1 as [v Hv|u v' v Hu Huv _ (p & Hhead & Hlast & Hchain)].
  - by exists [v].
  - exists (u :: p). destruct p as [|x p]; [done|].
    simpl in Hhead. injection Hhead as ->.
    split_and!; [done|done|by split].
Qed.

Lemma simulate_action_explored (w : World) (act : option string) :
  wf_machine (machine w) →
  ∃ R V', simulate_action act w = (Ok R, w) ∧
    explored (states (machine w)) act (current_state (machine w))
      (replicate (length (states (machine w))) false) R V'.
Proof.
  intros Hwf.
  pose proof (wf_current _ Hwf) as Hroot. unfold valid_id in Hroot.
  destruct (perform_action_explored (states (machine w)) (wf_targets_valid _ Hwf)
              (S (length (states (machine w)))) act (current_state (machine w))
              (replicate (length (states (machine w))) false))
    as (R & V' & Hrun & E).
  { by rewrite length_replicate. }
  { done. }
  { apply lookup_replicate. split; [done|lia]. }
  { rewrite unmarked_count_replicate. lia. }
  exists R, V'. split; [|done].
  unfold simulate_action. rewrite (M_bind_Ok _ _ w (machine w) w) by done.
  unfold lift. by rewrite Hrun.
Qed.

(** X13: every state that [simulate_action] reports can be reached: [bfs]
    from [current_state] to it returns a path of stored transitions with at
    least one step, and the result has fewer elements than the machine has
    states. *)
Theorem simulate_action_results_reachable (w : World) (act : option string)
    (R : list Z) :
  wf_machine (machine w) →
  simulate_action act w = (Ok R, w) →
  (length R < length (states (machine w)))%nat ∧
  ∀ v, v ∈ R →
    ∃ path, bfs v (Some (current_state (machine w))) w = (Ok path, w) ∧
            path_between (stored_edge (machine w)) (current_state (machine w)) v path ∧
            (2 ≤ length path)%nat.
Proof.
  intros Hwf Hsim.
  destruct (simulate_action_explored w act Hwf) as (R' & V' & Hsim' & E).
  rewrite Hsim in Hsim'. injection Hsim' as <-. destruct E.
  pose proof (wf_targets_valid _ Hwf) as Htargets.
  split.
  - pose proof (unmarked_count_replicate (length (states (machine w)))) as Hall.
    assert (∀ l V, NoDup l → length V = length (states (machine w)) →
              (∀ v, v ∈ l → 0 ≤ v < Z.of_nat (length (states (machine w))) ∧
                            ¬ marked V v) →
              (length l ≤ unmarked_count V)%nat) as Hcount.
    { induction l as [|x l IH]; intros V Hnd HlenV Hl; [simpl; lia|].
      apply NoDup_cons in Hnd as [Hx Hnd].
      destruct (Hl x) as [Hxv Hxm]; [left|].
      destruct (lookup_valid V x) as [[|] Hb]; [lia|done|].
      pose proof (unmarked_count_insert V _ Hb) as Hins.
      specialize (IH (<[Z.to_nat x:=true]> V) Hnd).
      rewrite length_insert in IH. specialize (IH HlenV).
      simpl. rewrite <- Hins. apply le_n_S, IH.
      intros v Hv. destruct (Hl v) as [Hvv Hvm]; [by right|].
      split; [done|]. intros Hm. apply marked_insert in Hm as [?| ->]; [done| |lia|lia].
      done. }
    pose proof (wf_current _ Hwf) as Hroot. unfold valid_id in Hroot.
    specialize (Hcount (current_state (machine w) :: R)
                  (replicate (length (states (machine w))) false)).
    rewrite Hall, length_replicate in Hcount. simpl in Hcount.
    apply Hcount; [|done|].
    + apply NoDup_cons. split; [|done].
      intros Hin. by apply explored_fresh0 in Hin as (_ & _ & ?).
    + intros v [->|Hv]%elem_of_cons.
      * split; [done|apply marked_replicate].
      * by apply explored_fresh0 in Hv as (? & ? & _).
  - intros v Hv.
    destruct (explored_sound0 v Hv) as (u & Hu & Hpath).
    destruct (explored_fresh0 v Hv) as (Hvalid & _ & Hne).
    apply (avoiding_path_weaken _ (out_step (states (machine w))) _ (λ _, False))
      in Hpath.
    2:{ intros x y _ (st & t & ? & ? & ? & ? & ?). by exists st, t. }
    2:{ done. }
    apply avoiding_path_chain in Hpath as (p & Hhead & Hlast & Hchain).
    assert (path_between (out_step (states (machine w)))
              (current_state (machine w)) v (current_state (machine w) :: p)) as Hp.
    { destruct p as [|x p]; [done|]. simpl in Hhead. injection Hhead as ->.
      split_and!; [done|done|]. split; [|done].
      destruct Hu as (st & t & ? & ? & ? & ? & ?). by exists st, t. }
    destruct (bfs_from_correct (machine w) v (current_state (machine w))
                Htargets (wf_current _ Hwf) Hvalid)
      as (path & Hrun & [[Hfound _]|[_ Hnone]]); [|by destruct (Hnone _ Hp)].
    exists path. split_and!.
    + unfold bfs. rewrite (M_bind_Ok _ _ w (machine w) w) by done.
      unfold lift. simpl. by rewrite Hrun.
    + eapply path_between_impl; [|exact Hfound]. intros a b. by apply out_step_stored.
    + destruct Hfound as (Hh & Hl & _).
      destruct path as [|a [|b path]]; simpl in *; [done| |lia].
      congruence.
Qed.

Lemma simulate_action_results_reachable_witness :
  (length [2] < length (states (with_current fixture 1)))%nat ∧
  ∀ v, v ∈ [2] →
    ∃ path, bfs v (Some 1) (fresh (with_current fixture 1))
            = (Ok path, fresh (with_current fixture 1)) ∧
            path_between (stored_edge (with_current fixture 1)) 1 v path ∧
            (2 ≤ length path)%nat.
Proof.
  apply (simulate_action_results_reachable (fresh (with_current fixture 1))
           (Some "press_a") [2]).
  - destruct fixture_wf as [He Hc Ho Hi].
    constructor; [exact He| |exact Ho|exact Hi].
    unfold valid_id. simpl. lia.
  - reflexivity.
Defined.

(** ** [bfs] with the start omitted *)

Lemma py_index_read (n : nat) (x : Z) :
  (0 < n)%nat → py_index n (index_read n x) = py_index n x.
Proof.
  intros Hn. unfold index_read. case_decide as Hx; [|done]. subst x.
  unfold py_index.
  rewrite bool_decide_eq_true_2 by lia.
  rewrite (bool_decide_eq_false_2 (0 ≤ -1 < _)) by lia.
  rewrite bool_decide_eq_true_2 by lia.
  f_equal. lia.
Qed.

Lemma py_getitem_read {A} (l : list A) (x : Z) :
  (0 < length l)%nat → py_getitem l (index_read (length l) x) = py_getitem l x.
Proof. intros Hn. unfold py_getitem. by rewrite py_index_read. Qed.

Lemma py_setitem_read {A} (l : list A) (x : Z) (a : A) :
  (0 < length l)%nat → py_setitem l (index_read (length l) x) a = py_setitem l x a.
Proof. intros Hn. unfold py_setitem. by rewrite py_index_read. Qed.

Lemma py_getitem_fmap {A B} (f : A → B) (l : list A) (i : Z) :
  py_getitem (f <$> l) i = result_map f (py_getitem l i).
Proof.
  unfold py_getitem. rewrite length_fmap.
  destruct (py_index (length l) i) as [k|]; [|done].
  rewrite list_lookup_fmap. by destruct (l !! k).
Qed.

Lemma py_setitem_fmap {A B} (f : A → B) (l : list A) (i : Z) (x : A) :
  py_setitem (f <$> l) i (f x) = result_map (fmap f) (py_setitem l i x).
Proof.
  unfold py_setitem. rewrite length_fmap.
  destruct (py_index (length l) i) as [k|]; [|done].
  simpl. by rewrite list_fmap_insert.
Qed.

Lemma py_getitem_Ok_elem {A} (l : list A) (i : Z) (x : A) :
  py_getitem l i = Ok x → ∃ k, l !! k = Some x.
Proof.
  unfold py_getitem. destruct (py_index (length l) i) as [k|]; [|done].
  destruct (l !! k) as [y|] eqn:Hk; [|done]. intros [= ->]. eauto.
Qed.

Lemma result_map_Ok_inv {A B} (f : A → B) (r : result A) (b : B) :
  result_map f r = Ok b → ∃ a, r = Ok a ∧ f a = b.
Proof. destruct r as [a| |]; simpl; [|done|done]. intros [= <-]. eauto. Qed.

(** Reading the current state [-1] as the last id changes nothing in the
    [for] loop but the values written to the queue and to [prev]. *)
Lemma bfs_visit_read (n : nat) (nb : list Z) (c : Z) :
  (∀ x, x ∈ nb → x ≠ -1) →
  ∀ q V P,
    bfs_visit nb (index_read n c) (read_queue n q) V (read_prev n P)
    = result_map (λ '(q', V', P'), (read_queue n q', V', read_prev n P'))
                 (bfs_visit nb c q V P).
Proof.
  induction nb as [|next nb IH]; intros Hnb q V P; [done|].
  assert (∀ x, x ∈ nb → x ≠ -1) as Hnb' by (intros x Hx; apply Hnb; by right).
  simpl. destruct (py_getitem V next) as [seen| |]; simpl; [|done|done].
  destruct seen; simpl; [by apply IH|].
  destruct (py_setitem V next true) as [V'| |]; simpl; [|done|done].
  change (Some (index_read n c)) with (read_at n (Some c)).
  unfold read_prev at 1. rewrite py_setitem_fmap.
  destruct (py_setitem P next (Some c)) as [P'| |]; simpl; [|done|done].
  fold (read_prev n P'). rewrite <- (IH Hnb' (q ++ [next]) V' P').
  unfold read_queue. rewrite fmap_app. simpl.
  do 4 f_equal. unfold index_read. rewrite decide_False; [done|]. apply Hnb. left.
Qed.

Lemma bfs_search_read (sts : list State) :
  targets_valid sts → (0 < length sts)%nat →
  ∀ fuel q V P,
    bfs_search fuel sts (read_queue (length sts) q) V (read_prev (length sts) P)
    = result_map (λ '(V', P'), (V', read_prev (length sts) P'))
                 (bfs_search fuel sts q V P).
Proof.
  intros Htargets Hn. induction fuel as [|fuel IH]; intros q V P; [done|].
  destruct q as [|c q]; [done|]. simpl.
  rewrite py_getitem_read by done.
  destruct (py_getitem sts c) as [st| |] eqn:Hst; simpl; [|done|done].
  fold (read_queue (length sts) q). rewrite bfs_visit_read.
  2:{ intros x (t & -> & Ht)%list_elem_of_fmap.
      destruct (py_getitem_Ok_elem _ _ _ Hst) as [k Hk].
      pose proof (Htargets k st t Hk Ht). lia. }
  destruct (bfs_visit _ c q V P) as [[[q' V'] P']| |]; simpl; [|done|done].
  apply IH.
Qed.

Lemma bfs_walk_read (n : nat) (fuel : nat) :
  ∀ P at_ path,
    length P = n → (0 < n)%nat →
    bfs_walk fuel (read_prev n P) (read_at n at_) (read_queue n path)
    = result_map (read_queue n) (bfs_walk fuel P at_ path).
Proof.
  induction fuel as [|fuel IH]; intros P at_ path HlenP Hn.
  { by destruct at_. }
  destruct at_ as [a|]; [|done]. simpl.
  assert (py_getitem (read_prev n P) (index_read n a)
          = result_map (read_at n) (py_getitem P a)) as ->.
  { unfold read_prev. rewrite <- py_getitem_fmap.
    rewrite <- HlenP at 2. rewrite <- (length_fmap (read_at n) P).
    apply py_getitem_read. rewrite length_fmap. lia. }
  destruct (py_getitem P a) as [nxt| |]; simpl; [|done|done].
  rewrite <- (IH P nxt (path ++ [a]) HlenP Hn).
  unfold read_queue. by rewrite fmap_app.
Qed.

Lemma bfs_visit_last_kept (n : nat) (nb : list Z) (c : Z) :
  c ≠ Z.of_nat n - 1 →
  (∀ x, x ∈ nb → 0 ≤ x < Z.of_nat n) →
  ∀ q V P q' V' P',
    last_kept n q V P →
    bfs_visit nb c q V P = Ok (q', V', P') →
    last_kept n q' V' P'.
Proof.
  intros Hc. induction nb as [|next nb IH]; intros Hnb q V P q' V' P' K Hrun.
  { simpl in Hrun. by injection Hrun as <- <- <-. }
  assert (∀ x, x ∈ nb → 0 ≤ x < Z.of_nat n) as Hnb' by (intros x Hx; apply Hnb; by right).
  destruct (Hnb next) as [Hpos Hlt]; [left|].
  simpl in Hrun.
  apply rbind_Ok_inv in Hrun as (seen & Hseen & Hrun).
  destruct seen; simpl in Hrun; [by eapply IH|].
  destruct K.
  rewrite !py_setitem_valid, !rbind_Ok in Hrun by lia.
  apply py_getitem_Ok_inv in Hseen; [|done].
  assert (Z.to_nat next ≠ (n - 1)%nat) as Hne by congruence.
  eapply IH; [done| |exact Hrun]. constructor.
  - by rewrite length_insert.
  - by rewrite length_insert.
  - by rewrite list_lookup_insert_ne.
  - intros x [Hx| ->%list_elem_of_singleton]%elem_of_app; [by apply lk_queue0|lia].
  - intros i. destruct (decide (i = Z.to_nat next)) as [->|Hi].
    + rewrite list_lookup_insert_eq by lia. congruence.
    + rewrite list_lookup_insert_ne by done. apply lk_prev0.
Qed.

Lemma bfs_search_last_kept (sts : list State) :
  targets_valid sts →
  ∀ fuel q V P V' P',
    last_kept (length sts) q V P →
    bfs_search fuel sts q V P = Ok (V', P') →
    last_kept (length sts) [] V' P'.
Proof.
  intros Htargets. induction fuel as [|fuel IH]; intros q V P V' P' K Hrun; [done|].
  destruct q as [|c q]; simpl in Hrun.
  { by injection Hrun as <- <-. }
  apply rbind_Ok_inv in Hrun as (st & Hst & Hrun).
  apply rbind_Ok_inv in Hrun as ([[q1 V1] P1] & Hvisit & Hrun).
  eapply IH; [|exact Hrun].
  eapply (bfs_visit_last_kept _ _ c); [| | |exact Hvisit].
  - apply (lk_queue _ _ _ _ K). left.
  - intros x (t & -> & Ht)%list_elem_of_fmap.
    destruct (py_getitem_Ok_elem _ _ _ Hst) as [k Hk]. by eapply Htargets.
  - destruct K. constructor; try done. intros x Hx. apply lk_queue0. by right.
Qed.

Lemma bfs_walk_values (fuel : nat) (P : list (option Z)) :
  ∀ a path path',
    bfs_walk fuel P (Some a) path = Ok path' →
    ∃ ext, path' = path ++ a :: ext ∧
           ∀ x, x ∈ ext → ∃ i, P !! i = Some (Some x).
Proof.
  induction fuel as [|fuel IH]; intros a path path' Hrun; [done|].
  simpl in Hrun. apply rbind_Ok_inv in Hrun as (nxt & Hnxt & Hrun).
  destruct nxt as [b|].
  - destruct (IH b _ _ Hrun) as (ext & -> & Hext).
    exists (b :: ext). split; [by rewrite <- app_assoc|].
    intros x [->|Hx]%elem_of_cons; [|by apply Hext].
    by apply py_getitem_Ok_elem in Hnxt.
  - rewrite bfs_walk_None in Hrun. injection Hrun as <-.
    exists []. split; [done|]. intros x Hx. by apply elem_of_nil in Hx.
Qed.

Lemma read_queue_id (n : nat) (l : list Z) :
  (∀ x, x ∈ l → x ≠ -1) → read_queue n l = l.
Proof.
  intros Hl. unfold read_queue. induction l as [|x l IH]; [done|].
  rewrite fmap_cons. rewrite IH by (intros y Hy; apply Hl; by right).
  f_equal. unfold index_read. rewrite decide_False; [done|]. apply Hl. left.
Qed.

Lemma index_read_default (n : nat) : index_read n (-1) = Z.of_nat n - 1.
Proof. unfold index_read. by rewrite decide_True. Qed.

Lemma index_read_other (n : nat) (x : Z) : x ≠ -1 → index_read n x = x.
Proof. intros Hx. unfold index_read. by rewrite decide_False. Qed.

(** [bfs] started at the default [-1], over the outgoing lists. *)
Lemma bfs_from_default (m : FiniteStateMachine) (end_ : Z) :
  targets_valid (states m) → (0 < length (states m))%nat → valid_id m end_ →
  ∃ path, bfs_from m end_ (-1) = Ok path ∧
    ((path = [] ∧
      (end_ = last_id m ∨
       ∀ p, ¬ path_between (out_step (states m)) (last_id m) end_ p)) ∨
     (∃ rest, path = -1 :: rest ∧ end_ ≠ last_id m ∧
        path_between (out_step (states m)) (last_id m) end_ (last_id m :: rest) ∧
        ∀ p, path_between (out_step (states m)) (last_id m) end_ p →
             (length path ≤ length p)%nat)).
Proof.
  intros Htargets Hn Hend. unfold valid_id in Hend.
  set (n := length (states m)) in *.
  assert (last_id m = Z.of_nat n - 1) as Hlast_eq by done.
  set (lst := last_id m) in *.
  assert (0 ≤ lst < Z.of_nat n) as Hlast by lia.
  destruct (bfs_from_simple m end_ lst Htargets Hlast Hend)
    as (path2 & Hrun2 & Hnodup & _ & _ & Hcases).
  unfold bfs_from in Hrun2 |- *. fold n in Hrun2 |- *.
  set (V0 := <[Z.to_nat lst:=true]> (replicate n false)).
  assert (py_setitem (replicate n false) lst true = Ok V0) as HV0
    by (apply py_setitem_valid; by rewrite length_replicate).
  assert (py_setitem (replicate n false) (-1) true = Ok V0) as HV0'.
  { rewrite <- HV0. rewrite <- (py_setitem_read _ (-1)) by (rewrite length_replicate; lia).
    rewrite length_replicate, index_read_default. by rewrite Hlast_eq. }
  rewrite HV0, rbind_Ok in Hrun2. rewrite HV0', rbind_Ok.
  apply rbind_Ok_inv in Hrun2 as ([V P2] & Hsearch2 & Hrun2).
  (* the two searches agree up to the reading of -1 *)
  pose proof (bfs_search_read (states m) Htargets Hn (S n) [-1] V0 (replicate n None))
    as Hsim. fold n in Hsim.
  assert (read_queue n [-1] = [lst]) as Hq.
  { unfold read_queue. rewrite fmap_cons, index_read_default. by rewrite Hlast_eq. }
  assert (read_prev n (replicate n None) = replicate n None) as HP0.
  { unfold read_prev. by rewrite fmap_replicate. }
  rewrite Hq, HP0, Hsearch2 in Hsim. symmetry in Hsim.
  apply result_map_Ok_inv in Hsim as ([V1 P1] & Hsearch1 & [= -> <-]).
  assert (last_kept n [] V P1) as K.
  { eapply (bfs_search_last_kept (states m) Htargets); [|exact Hsearch1].
    constructor.
    - unfold V0. by rewrite length_insert, length_replicate.
    - by rewrite length_replicate.
    - change (length (states m)) with n.
      replace (n - 1)%nat with (Z.to_nat lst) by lia.
      apply list_lookup_insert_eq. rewrite length_replicate. lia.
    - intros x ->%list_elem_of_singleton. lia.
    - intros i Hi. by apply lookup_replicate in Hi as [? _]. }
  rewrite Hsearch1, rbind_Ok.
  apply rbind_Ok_inv in Hrun2 as (wp2 & Hwalk2 & Hrun2).
  pose proof (bfs_walk_read n (S n) P1 (Some end_) [] (lk_len_P _ _ _ _ K) Hn)
    as Hwsim.
  assert (read_at n (Some end_) = Some end_) as Hat.
  { unfold read_at. simpl. rewrite index_read_other; [done|lia]. }
  rewrite Hat in Hwsim. change (read_queue n []) with (@nil Z) in Hwsim.
  rewrite Hwalk2 in Hwsim. symmetry in Hwsim.
  apply result_map_Ok_inv in Hwsim as (wp1 & Hwalk1 & Hwp).
  rewrite Hwalk1, rbind_Ok.
  destruct (bfs_walk_values _ _ _ _ _ Hwalk1) as (ext & Hwp1 & Hext).
  simpl in Hwp1.
  assert (∀ x, x ∈ ext → x ≠ lst) as Hext'.
  { intros x Hx ->. destruct (Hext _ Hx) as [i Hi].
    apply (lk_prev _ _ _ _ K i). by rewrite <- Hlast_eq. }
  cbv zeta in Hrun2 |- *.
  destruct (reverse wp1) as [|y rest1] eqn:Hrp1.
  { apply (f_equal length) in Hrp1. rewrite length_reverse, Hwp1 in Hrp1. done. }
  assert (y = end_ ∨ y ∈ ext) as Hy.
  { assert (y ∈ reverse wp1) as Hin by (rewrite Hrp1; left).
    rewrite elem_of_reverse, Hwp1 in Hin. by apply elem_of_cons in Hin. }
  assert (reverse wp2 = index_read n y :: read_queue n rest1) as Hrp2.
  { rewrite <- Hwp. unfold read_queue. by rewrite <- fmap_reverse, Hrp1. }
  rewrite Hrp2 in Hrun2.
  rewrite (py_getitem_valid _ 0 (index_read n y)), rbind_Ok in Hrun2 by done.
  rewrite (py_getitem_valid _ 0 y), rbind_Ok by done.
  destruct (decide (y = -1)) as [->|Hyne].
  - (* the walk ended at -1 *)
    exists (-1 :: rest1). split; [done|]. right.
    assert (index_read n (-1) = lst) as Hread.
    { rewrite index_read_default. by rewrite Hlast_eq. }
    rewrite Hread, decide_True in Hrun2 by done. injection Hrun2 as <-.
    destruct Hcases as [[Hpath Hshort]|[[=] _]].
    apply NoDup_cons in Hnodup as [Hfresh _].
    assert (read_queue n rest1 = rest1) as Hrest.
    { apply read_queue_id. intros x Hx ->. apply Hfresh.
      unfold read_queue. apply list_elem_of_fmap. exists (-1). by rewrite Hread. }
    rewrite Hrest in Hpath, Hshort, Hfresh.
    exists rest1. split_and!; [done| |done|done].
    intros Heq. destruct Hpath as (_ & Hl & _).
    destruct rest1 as [|z rest1].
    + assert (wp1 = [-1]) as Hwp1'.
      { by rewrite <- (reverse_involutive wp1), Hrp1. }
      rewrite Hwp1 in Hwp1'. injection Hwp1' as ? _. lia.
    + apply Hfresh. rewrite <- Heq.
      change (last (last_id m :: z :: rest1)) with (last (z :: rest1)) in Hl.
      by apply last_Some_elem_of.
  - (* it ended elsewhere: the result is empty *)
    exists []. split; [done|]. left.
    split; [done|].
    destruct (decide (end_ = lst)) as [?|Hne]; [by left|right].
    destruct Hcases as [[Hpath _]|[_ Hnone]]; [|done].
    exfalso.
    assert (index_read n y = y) as Hread by (by apply index_read_other).
    rewrite Hread in Hrun2. case_decide as Hylast.
    + destruct Hy as [?|Hy]; [congruence|]. by apply (Hext' y).
    + injection Hrun2 as <-. by destruct Hpath as ([=] & _).
Qed.

(** X14: with [start] omitted, [bfs] does not look at [current_state]: it
    searches from the last state of the state list.  The result is empty
    when [end] is that last state or cannot be reached from it; otherwise
    it is [-1] followed by the rest of a shortest path of stored transitions
    from the last state to [end]. *)
Theorem bfs_default_start_searches_from_last (w : World) (end_ : Z) :
  wf_machine (machine w) → valid_id (machine w) end_ →
  ∃ path, bfs end_ None w = (Ok path, w) ∧
    ((end_ = last_id (machine w) ∨ ¬ reachable (machine w) (last_id (machine w)) end_) →
     path = []) ∧
    (end_ ≠ last_id (machine w) → reachable (machine w) (last_id (machine w)) end_ →
     ∃ rest, path = -1 :: rest ∧
       path_between (stored_edge (machine w)) (last_id (machine w)) end_
         (last_id (machine w) :: rest) ∧
       ∀ p, path_between (stored_edge (machine w)) (last_id (machine w)) end_ p →
            (length path ≤ length p)%nat).
Proof.
  intros Hwf Hend.
  pose proof (wf_current _ Hwf) as Hcur. unfold valid_id in Hcur.
  destruct (bfs_from_default (machine w) end_ (wf_targets_valid _ Hwf)
              ltac:(lia) Hend) as (path & Hrun & Hcases).
  assert (∀ p, path_between (stored_edge (machine w)) (last_id (machine w)) end_ p ↔
               path_between (out_step (states (machine w)))
                 (last_id (machine w)) end_ p) as Hedges.
  { intros p. split; apply path_between_impl; intros u v.
    - by apply stored_out_step.
    - by apply out_step_stored. }
  exists path. split.
  { unfold bfs. rewrite (M_bind_Ok _ _ w (machine w) w) by done.
    unfold lift. simpl. by rewrite Hrun. }
  destruct Hcases as [[-> Hwhy]|(rest & -> & Hne & Hpath & Hshort)].
  - split; [done|]. intros Hne [p Hp]. exfalso.
    destruct Hwhy as [?|Hnone]; [done|]. apply (Hnone p). by apply Hedges.
  - split.
    + intros [?|Hnot]; [done|]. exfalso. apply Hnot.
      exists (last_id (machine w) :: rest). by apply Hedges.
    + intros _ _. exists rest. split_and!; [done|by apply Hedges|].
      intros p Hp. apply Hshort. by apply Hedges.
Qed.

Lemma bfs_default_start_searches_from_last_witness :
  ∃ path, bfs 2 None (fresh detour) = (Ok path, fresh detour) ∧
    ((2 = last_id detour ∨ ¬ reachable detour (last_id detour) 2) → path = []) ∧
    (2 ≠ last_id detour → reachable detour (last_id detour) 2 →
     ∃ rest, path = -1 :: rest ∧
       path_between (stored_edge detour) (last_id detour) 2 (last_id detour :: rest) ∧
       ∀ p, path_between (stored_edge detour) (last_id detour) 2 p →
            (length path ≤ length p)%nat).
Proof.
  apply (bfs_default_start_searches_from_last (fresh detour) 2).
  - destruct (from_csv_wf [["s0"]; ["s1"]; ["s2"]]
                [["a"; "s0"; "s1"]; [EmptyString; "s1"; "s0"]; [EmptyString; "s0"; "s2"]])
      as (m & Hm & Hwf).
    + done.
    + intros row Hrow.
      repeat (apply elem_of_cons in Hrow as [->|Hrow]; [done|]).
      by apply elem_of_nil in Hrow.
    + repeat constructor.
      * exists "a", "s0", "s1". split_and!; try done; vm_compute; [left|right; left].
      * exists EmptyString, "s1", "s0". split_and!; try done; vm_compute; [right; left|left].
      * exists EmptyString, "s0", "s2". split_and!; try done; vm_compute; [left|right; right; left].
    + rewrite detour_loaded in Hm. by injection Hm as <-.
  - unfold valid_id. simpl. lia.
Defined.

(** ** [game_state.py]: [Nature.stat_mod] *)

(** X15: [stat_mod] indexes the five modifiers with [stat.index - 1].  For
    attack, defense, special attack, special defense and speed it returns
    the modifier at that position; for [HP] the index is [-1], so it returns
    the last one, the speed modifier; for accuracy and evasion it raises
    [IndexError]. *)
Theorem stat_mod_by_stat (nature : Nature) (stat : Stat) :
  match stat with
  | HP => stat_mod nature HP = stat_mod nature SPD ∧
          ∃ x, stat_mod nature HP = Ok x ∧ stat_mods nature !! 4%nat = Some x
  | ACC | EVA => stat_mod nature stat = Raise IndexError
  | _ => ∃ x, stat_mod nature stat = Ok x ∧
              stat_mods nature !! Z.to_nat (stat_index stat - 1) = Some x
  end.
Proof.
  destruct stat; destruct nature; vm_compute; eauto.
Qed.

(** X16: the nature table is the full chart: a nature is neutral or raises
    exactly one of the five stats and lowers exactly one other, and every
    pair of a raised and a different lowered stat belongs to exactly one
    nature. *)
Theorem nature_table_chart :
  (∀ nature,
     is_neutral nature ∨
     ∃ i j, i ≠ j ∧ raised_at nature i ∧ lowered_at nature j ∧
            ∀ k, (k < 5)%nat → k ≠ i → k ≠ j → stat_mods nature !! k = Some x1_0) ∧
  (∀ i j, (i < 5)%nat → (j < 5)%nat → i ≠ j →
     ∃ nature, raised_at nature i ∧ lowered_at nature j ∧
               ∀ nature', raised_at nature' i → lowered_at nature' j →
                          nature' = nature).
Proof.
  split.
  - intros nature.
    destruct nature;
      first [ by left
            | right;
              first [ nature_row 0%nat 1%nat | nature_row 0%nat 2%nat
                    | nature_row 0%nat 3%nat | nature_row 0%nat 4%nat
                    | nature_row 1%nat 0%nat | nature_row 1%nat 2%nat
                    | nature_row 1%nat 3%nat | nature_row 1%nat 4%nat
                    | nature_row 2%nat 0%nat | nature_row 2%nat 1%nat
                    | nature_row 2%nat 3%nat | nature_row 2%nat 4%nat
                    | nature_row 3%nat 0%nat | nature_row 3%nat 1%nat
                    | nature_row 3%nat 2%nat | nature_row 3%nat 4%nat
                    | nature_row 4%nat 0%nat | nature_row 4%nat 1%nat
                    | nature_row 4%nat 2%nat | nature_row 4%nat 3%nat ] ].
  - intros i j Hi Hj Hij.
    destruct i as [|[|[|[|[|i]]]]]; [| | | | |lia];
      (destruct j as [|[|[|[|[|j]]]]]; [| | | | |lia]); try done;
      first [ nature_of_pair ADAMANT | nature_of_pair BOLD | nature_of_pair BRAVE
            | nature_of_pair CALM | nature_of_pair CAREFUL | nature_of_pair GENTLE
            | nature_of_pair HASTY | nature_of_pair IMPISH | nature_of_pair JOLLY
            | nature_of_pair LAX | nature_of_pair LONELY | nature_of_pair MILD
            | nature_of_pair MODEST | nature_of_pair NAIVE | nature_of_pair NAUGHTY
            | nature_of_pair QUIET | nature_of_pair RASH | nature_of_pair RELAXED
            | nature_of_pair SASSY | nature_of_pair TIMID ].
Qed.

Lemma nature_table_chart_witness :
  (is_neutral HARDY ∨
   ∃ i j, i ≠ j ∧ raised_at HARDY i ∧ lowered_at HARDY j ∧
          ∀ k, (k < 5)%nat → k ≠ i → k ≠ j → stat_mods HARDY !! k = Some x1_0) ∧
  ∃ nature, raised_at nature 0 ∧ lowered_at nature 2 ∧
            ∀ nature', raised_at nature' 0 → lowered_at nature' 2 →
                       nature' = nature.
Proof.
  destruct nature_table_chart as [Heach Hpair]. split.
  - apply Heach.
  - apply (Hpair 0%nat 2%nat); lia.
Defined.
